(** * Kismet event bus, data-source tracker and capture-frame codec

    A shallow embedding of [eventbus.cc] (the publish/subscribe broker), of
    the probe coordinator and source supervisor declared in
    [datasourcetracker.h], and of the framed key/value capture protocol
    consumed through [kis_datasource.h], together with the properties the
    specification states about them. *)

From Stdlib Require Import NArith ZArith Strings.Byte Sorting.Sorted.
From stdpp Require Import gmap strings list.

Local Open Scope string_scope.
Local Open Scope list_scope.

(** ** Event bus ([eventbus.cc]) *)

Module EventBus.

(** [unsigned long] on the LP64 targets of the server: 64 bits, arithmetic
    modulo [2^64]. *)
Definition ULONG_BITS : N := 64.
Definition ULONG_MAX : N := 2 ^ ULONG_BITS - 1.
Definition ulong (n : N) : N := (n mod 2 ^ ULONG_BITS)%N.

(** The three global flags the dispatcher polls besides [shutdown]. *)
Record globalreg_flags := {
  spindown : bool;
  fatal_condition : bool;
  complete : bool
}.

Definition globalreg_running : globalreg_flags :=
  {| spindown := false; fatal_condition := false; complete := false |}.

Section Bus.
(** [Payload] is the opaque content carried by an event; [W] is whatever
    part of the process state the handlers read and write. *)
Context {Payload W : Type}.

(** Modelled from the spec: the class [eventbus_event] is declared in
    [eventbus.h], which is not part of the sources.  The bus builds events
    with [eventbus_event(int, const std::string&)] and reads the channel
    key back with [get_event_id()], which it uses to index the
    string-keyed [callback_table]; the payload is opaque. *)
Record eventbus_event := {
  tracker_id : Z;          (* first constructor argument *)
  get_event_id : string;   (* second constructor argument: the channel *)
  event_content : option Payload
}.

(** What running a handler can do: return, or leave by an exception.  A
    handler is run on the event and on the state it can see; handlers that
    call back into the bus they are called from are outside this model. *)
Inductive cb_outcome :=
| Returned (w : W)
| Thrown (w : W).

Definition cb_func := eventbus_event → W → cb_outcome.

(** [callback_listener] and the members of [event_bus] are declared in
    [eventbus.h], which is not part of the sources; the fields are those
    [eventbus.cc] reads and writes.  A listener is shared between the channel
    lists and the id index and is never changed after it is built, so the
    shared object is modelled by its value. *)
Record callback_listener := {
  channels : list string;
  cb : cb_func;
  id : N
}.

Record event_bus := {
  next_cbl_id : N;
  shutdown : bool;
  eventbus_event_id : Z;
  event_queue : list eventbus_event;
  callback_table : gmap string (list callback_listener);
  callback_id_table : gmap N callback_listener
}.

(** [event_bus::event_bus()]; [field_id] is what
    [entrytracker->register_field("kismet.eventbus.event", ...)] returned. *)
Definition new_event_bus (field_id : Z) : event_bus :=
  {| next_cbl_id := 1;
     shutdown := false;
     eventbus_event_id := field_id;
     event_queue := [];
     callback_table := ∅;
     callback_id_table := ∅ |}.

(** [event_bus::~event_bus()] up to joining the thread. *)
Definition begin_shutdown (b : event_bus) : event_bus :=
  {| next_cbl_id := next_cbl_id b;
     shutdown := true;
     eventbus_event_id := eventbus_event_id b;
     event_queue := event_queue b;
     callback_table := callback_table b;
     callback_id_table := callback_id_table b |}.

(** [event_bus::get_eventbus_event] *)
Definition get_eventbus_event (b : event_bus) (event_type : string)
  : eventbus_event :=
  {| tracker_id := eventbus_event_id b;
     get_event_id := event_type;
     event_content := None |}.

Definition with_content (e : eventbus_event) (p : Payload) : eventbus_event :=
  {| tracker_id := tracker_id e;
     get_event_id := get_event_id e;
     event_content := Some p |}.

(** Modelled from the spec: [publish] lives in [eventbus.h]; it enqueues at
    the tail of the dispatch queue. *)
Definition publish (e : eventbus_event) (b : event_bus) : event_bus :=
  {| next_cbl_id := next_cbl_id b;
     shutdown := shutdown b;
     eventbus_event_id := eventbus_event_id b;
     event_queue := event_queue b ++ [e];
     callback_table := callback_table b;
     callback_id_table := callback_id_table b |}.

(** [callback_table[c].push_back(cbl)] *)
Definition push_back_channel (cbl : callback_listener)
    (t : gmap string (list callback_listener)) (c : string)
  : gmap string (list callback_listener) :=
  <[c := (t !!! c) ++ [cbl]]> t.

(** [event_bus::register_listener(const std::string&, cb_func)] *)
Definition register_listener (channel : string) (f : cb_func) (b : event_bus)
  : event_bus * N :=
  let cbl := {| channels := [channel]; cb := f; id := next_cbl_id b |} in
  ({| next_cbl_id := ulong (next_cbl_id b + 1);
      shutdown := shutdown b;
      eventbus_event_id := eventbus_event_id b;
      event_queue := event_queue b;
      callback_table := push_back_channel cbl (callback_table b) channel;
      callback_id_table := <[id cbl := cbl]> (callback_id_table b) |},
   id cbl).

(** [event_bus::register_listener(const std::list<std::string>&, cb_func)] *)
Definition register_listener_list (chans : list string) (f : cb_func)
    (b : event_bus) : event_bus * N :=
  let cbl := {| channels := chans; cb := f; id := next_cbl_id b |} in
  ({| next_cbl_id := ulong (next_cbl_id b + 1);
      shutdown := shutdown b;
      eventbus_event_id := eventbus_event_id b;
      event_queue := event_queue b;
      callback_table := foldl (push_back_channel cbl) (callback_table b) chans;
      callback_id_table := <[id cbl := cbl]> (callback_id_table b) |},
   id cbl).

(** The inner loop of [remove_listener]: erase the first element whose id
    matches, then [break]. *)
Fixpoint erase_first (i : N) (l : list callback_listener)
  : list callback_listener :=
  match l with
  | [] => []
  | x :: r => if (id x =? i)%N then r else x :: erase_first i r
  end.

(** [auto cb_list = callback_table[c];] - [operator[]] default-inserts an
    empty list for a missing key, and [auto] deduces a value type, so
    [cb_list] is a copy of the mapped list. *)
Definition table_index (t : gmap string (list callback_listener)) (c : string)
  : gmap string (list callback_listener) * list callback_listener :=
  match t !! c with
  | Some l => (t, l)
  | None => (<[c := []]> t, [])
  end.

(** One iteration of the outer loop of [remove_listener]: the erase acts on
    the local copy, which goes out of scope at the end of the iteration. *)
Definition remove_from_channel (i : N)
    (t : gmap string (list callback_listener)) (c : string)
  : gmap string (list callback_listener) :=
  let '(t', cb_list) := table_index t c in
  let cb_list' := erase_first i cb_list in
  t'.

(** [event_bus::remove_listener] *)
Definition remove_listener (i : N) (b : event_bus) : event_bus :=
  match callback_id_table b !! i with
  | None => b
  | Some cbl =>
      {| next_cbl_id := next_cbl_id b;
         shutdown := shutdown b;
         eventbus_event_id := eventbus_event_id b;
         event_queue := event_queue b;
         callback_table :=
           foldl (remove_from_channel i) (callback_table b) (channels cbl);
         callback_id_table := delete i (callback_id_table b) |}
  end.

(** *** The dispatcher *)

(** A record of one call [cbl->cb(e)]. *)
Definition invocation : Type := callback_listener * eventbus_event.

(** [for (const auto& cbl : ...) cbl->cb(e);] - there is no [try] around
    the call, so an exception leaves the loop. *)
Fixpoint invoke_each (ls : list callback_listener) (e : eventbus_event)
    (w : W) : list invocation * cb_outcome :=
  match ls with
  | [] => ([], Returned w)
  | l :: r =>
      match cb l e w with
      | Returned w' =>
          let '(log, o) := invoke_each r e w' in ((l, e) :: log, o)
      | Thrown w' => ([(l, e)], Thrown w')
      end
  end.

(** An iterator that is [end()] runs no loop. *)
Definition invoke_found (it : option (list callback_listener))
    (e : eventbus_event) (w : W) : list invocation * cb_outcome :=
  match it with
  | None => ([], Returned w)
  | Some ls => invoke_each ls e w
  end.

(** The body of the dispatcher for one popped event [e]. *)
Definition dispatch_event (b : event_bus) (e : eventbus_event) (w : W)
  : list invocation * cb_outcome :=
  let ch_listeners := callback_table b !! get_event_id e in
  let ch_all_listeners := callback_table b !! "*" in
  match ch_listeners, ch_all_listeners with
  | None, None => ([], Returned w)
  | _, _ =>
      match invoke_found ch_listeners e w with
      | (log1, Returned w1) =>
          let '(log2, o) := invoke_found ch_all_listeners e w1 in
          (log1 ++ log2, o)
      | (log1, Thrown w1) => (log1, Thrown w1)
      end
  end.

(** How the dispatcher thread stands after a run. *)
Inductive dispatcher_status :=
| Waiting       (* queue empty: blocked in [event_cl.block_until()] *)
| Exited        (* the [while] condition failed *)
| Terminated    (* an exception left [event_queue_dispatcher] *)
| Running.      (* out of fuel, loop still going *)

Record dispatcher_run := {
  run_bus : event_bus;
  run_world : W;
  run_log : list invocation;
  run_status : dispatcher_status
}.

Definition pop_queue (b : event_bus) (rest : list eventbus_event) : event_bus :=
  {| next_cbl_id := next_cbl_id b;
     shutdown := shutdown b;
     eventbus_event_id := eventbus_event_id b;
     event_queue := rest;
     callback_table := callback_table b;
     callback_id_table := callback_id_table b |}.

Definition keep_running (g : globalreg_flags) (b : event_bus) : bool :=
  negb (shutdown b) && negb (spindown g) && negb (fatal_condition g)
    && negb (complete g).

(** [event_bus::event_queue_dispatcher], run until it blocks, exits or is
    left by an exception; [fuel] bounds the number of loop iterations. *)
Fixpoint dispatcher_loop (fuel : nat) (g : globalreg_flags) (b : event_bus)
    (w : W) (log : list invocation) : dispatcher_run :=
  match fuel with
  | O => {| run_bus := b; run_world := w; run_log := log;
            run_status := Running |}
  | S fuel' =>
      if keep_running g b then
        match event_queue b with
        | [] => {| run_bus := b; run_world := w; run_log := log;
                   run_status := Waiting |}
        | e :: rest =>
            let b' := pop_queue b rest in
            match dispatch_event b' e w with
            | (l, Returned w') => dispatcher_loop fuel' g b' w' (log ++ l)
            | (l, Thrown w') =>
                {| run_bus := b'; run_world := w'; run_log := log ++ l;
                   run_status := Terminated |}
            end
        end
      else {| run_bus := b; run_world := w; run_log := log;
              run_status := Exited |}
  end.

(** Handlers cannot enqueue in this model, so one iteration per queued
    event and one more to find the queue empty is enough. *)
Definition event_queue_dispatcher (g : globalreg_flags) (b : event_bus)
    (w : W) : dispatcher_run :=
  dispatcher_loop (S (length (event_queue b))) g b w [].

(** *** Histories of calls on a bus *)

Inductive bus_op :=
| OpRegister (channel : string) (f : cb_func)
| OpRegisterList (chans : list string) (f : cb_func)
| OpRemove (i : N)
| OpPublish (e : eventbus_event).

(** The bus after the call and the id it returned, if it returns one. *)
Definition apply_op (b : event_bus) (op : bus_op) : event_bus * option N :=
  match op with
  | OpRegister c f => let '(b', i) := register_listener c f b in (b', Some i)
  | OpRegisterList cs f =>
      let '(b', i) := register_listener_list cs f b in (b', Some i)
  | OpRemove i => (remove_listener i b, None)
  | OpPublish e => (publish e b, None)
  end.

Fixpoint run_ops (b : event_bus) (ops : list bus_op)
  : event_bus * list N :=
  match ops with
  | [] => (b, [])
  | op :: rest =>
      let '(b', r) := apply_op b op in
      let '(b'', ids) := run_ops b' rest in
      (b'', match r with Some i => i :: ids | None => ids end)
  end.

Definition is_registration (op : bus_op) : bool :=
  match op with
  | OpRegister _ _ | OpRegisterList _ _ => true
  | _ => false
  end.

Definition is_removal (op : bus_op) : bool :=
  match op with OpRemove _ => true | _ => false end.

Definition registrations (ops : list bus_op) : nat :=
  length (filter (λ op, is_registration op = true) ops).

(** The listener objects the registrations of a history create, in order. *)
Fixpoint created (b : event_bus) (ops : list bus_op) : list callback_listener :=
  match ops with
  | [] => []
  | op :: rest =>
      let b' := (apply_op b op).1 in
      match op with
      | OpRegister c f =>
          {| channels := [c]; cb := f; id := next_cbl_id b |} :: created b' rest
      | OpRegisterList cs f =>
          {| channels := cs; cb := f; id := next_cbl_id b |} :: created b' rest
      | _ => created b' rest
      end
  end.

(** How often channel [c] is named in a channel list. *)
Definition occurrences (c : string) (chans : list string) : nat :=
  length (filter (λ x, x = c) chans).

(** The entries that a sequence of listeners, installed in this order, leaves
    in the index of channel [c]: one per mention of [c] in a listener's list. *)
Definition subscribers_on (c : string) (ls : list callback_listener)
  : list callback_listener :=
  concat (map (λ l, replicate (occurrences c (channels l)) l) ls).

(** The listeners the dispatcher visits for an event, in the order it visits
    them. *)
Definition matching (b : event_bus) (e : eventbus_event)
  : list callback_listener :=
  callback_table b !!! get_event_id e ++ callback_table b !!! "*".

Definition returns_on (e : eventbus_event) (l : callback_listener) : Prop :=
  ∀ w, ∃ w', cb l e w = Returned w'.

Definition throws_on (e : eventbus_event) (l : callback_listener) : Prop :=
  ∀ w, ∃ w', cb l e w = Thrown w'.

(** The calls a bus makes for a list of events when every handler returns:
    event by event, the matching listeners in the order they are visited. *)
Definition deliveries (b : event_bus) (es : list eventbus_event)
  : list invocation :=
  concat (map (λ e, map (λ l, (l, e)) (matching b e)) es).

(** The state a handler leaves, however it ends. *)
Definition world_after (o : cb_outcome) : W :=
  match o with Returned w | Thrown w => w end.

(** The state after calling the handlers of [ls] on [e], one after the
    other, each on the state the previous one left. *)
Definition run_handlers (ls : list callback_listener) (e : eventbus_event)
    (w : W) : W :=
  foldl (λ w l, world_after (cb l e w)) w ls.

(** The state after the deliveries of a list of events, oldest first. *)
Definition run_deliveries (b : event_bus) (es : list eventbus_event) (w : W)
  : W :=
  foldl (λ w e, run_handlers (matching b e) e w) w es.

(** Calls of the two overloads of [register_listener]. *)
Inductive registration :=
| RegisterOne (channel : string) (f : cb_func)
| RegisterList (chans : list string) (f : cb_func).

Definition registration_op (r : registration) : bus_op :=
  match r with
  | RegisterOne c f => OpRegister c f
  | RegisterList cs f => OpRegisterList cs f
  end.

(** A fresh bus after a sequence of registrations, and the listeners these
    created, in registration order. *)
Definition registered (fid : Z) (regs : list registration) : event_bus :=
  (run_ops (new_event_bus fid) (map registration_op regs)).1.

Definition registered_listeners (fid : Z) (regs : list registration)
  : list callback_listener :=
  created (new_event_bus fid) (map registration_op regs).

(** How often the subscription [i] was called in a log. *)
Definition invocations_of (i : N) (log : list invocation) : nat :=
  length (filter (λ inv : invocation, id inv.1 = i) log).

End Bus.

Arguments eventbus_event : clear implicits.
Arguments cb_outcome : clear implicits.
Arguments cb_func : clear implicits.
Arguments callback_listener : clear implicits.
Arguments event_bus : clear implicits.
Arguments invocation : clear implicits.
Arguments dispatcher_run : clear implicits.
Arguments bus_op : clear implicits.
Arguments registration : clear implicits.

End EventBus.

(** *** Concrete buses

    Handlers over integer payloads that append their tag and the payload they
    were called with to a trace, and one that throws. *)

Module Scenarios.
Import EventBus.

Definition trace : Type := list (N * option Z).

Definition recording (tag : N) : cb_func Z trace :=
  λ e w, Returned (w ++ [(tag, event_content e)]).

Definition throwing : cb_func Z trace := λ e w, Thrown w.

Definition fresh_bus : event_bus Z trace := new_event_bus 42.

Definition listener (chans : list string) (f : cb_func Z trace) (i : N)
  : callback_listener Z trace :=
  {| channels := chans; cb := f; id := i |}.

(** An event on channel [c] carrying [p]. *)
Definition event_on (c : string) (p : Z) : eventbus_event Z :=
  with_content (get_eventbus_event fresh_bus c) p.

(** A and B on ["x"], C on ["*"]. *)
Definition fan_out : list (bus_op Z trace) :=
  [OpRegister "x" (recording 1); OpRegister "x" (recording 2);
   OpRegister "*" (recording 3)].

Definition fan_out_registrations : list (registration Z trace) :=
  [RegisterOne "x" (recording 1); RegisterOne "x" (recording 2);
   RegisterOne "*" (recording 3)].

(** Register on ["x"], remove the id, publish on ["x"]. *)
Definition removed_then_published : list (bus_op Z trace) :=
  [OpRegister "x" (recording 1); OpRemove 1; OpPublish (event_on "x" 7)].

(** One subscription whose list names the channel and ["*"]. *)
Definition channel_and_star : list (bus_op Z trace) :=
  [OpRegisterList ["x"; "*"] (recording 1)].

(** One subscription whose list names the channel twice. *)
Definition channel_twice : list (bus_op Z trace) :=
  [OpRegisterList ["x"; "x"] (recording 1)].

(** A throwing handler and a recording one on ["x"], two events queued. *)
Definition thrower_first : list (bus_op Z trace) :=
  [OpRegister "x" throwing; OpRegister "x" (recording 2);
   OpPublish (event_on "x" 7); OpPublish (event_on "x" 8)].

(** Two registrations, then one with no channel. *)
Definition two_then_none : list (bus_op Z trace) :=
  [OpRegister "x" (recording 1); OpRegisterList ["y"; "*"] (recording 2)].

(** The fan-out bus with an event on ["x"] and one on ["y"] queued. *)
Definition fan_out_published : list (bus_op Z trace) :=
  fan_out ++ [OpPublish (event_on "x" 7); OpPublish (event_on "y" 8)].

(** Register, remove the id, register again. *)
Definition removed_then_registered : list (bus_op Z trace) :=
  two_then_none ++ [OpRemove 1; OpRegister "x" (recording 3)].

End Scenarios.

(** ** Probe coordinator ([DST_DataSourceProbe] of [datasourcetracker.h]) *)

Module ProbeCoordinator.

(** Modelled from the spec: how one probe attempt stands. *)
Inductive attempt_outcome :=
| Pending
| Accepted
| Rejected
| Cancelled
| TimedOut.

#[global] Instance attempt_outcome_eq_dec : EqDecision attempt_outcome.
Proof. solve_decision. Defined.

(** Modelled from the spec: what the completion callback is handed - the
    winning driver, or why there is none. *)
Inductive probe_outcome :=
| Chosen (driver : string)
| NoDriver
| ProbeTimeout
| ProbeCancelled.

(** Modelled from the spec: a driver descriptor as far as probing goes; a
    driver either probes natively or needs a child process. *)
Record builder := {
  driver_name : string;
  native_probe : option (string → bool)
}.

(** Modelled from the spec: a probe attempt and its child process. *)
Record probe_attempt := {
  attempt_driver : string;
  child_alive : bool;
  outcome : attempt_outcome
}.

(** Modelled from the spec: the class body is declared in the header, its
    member functions are not part of the sources.  The fields keep the
    header's names; [resolved] is the terminal state the spec speaks of,
    [cancel_timer] tells whether the deadline timer is armed, and
    [probe_cb_calls] lists the calls made to [probe_cb], oldest first. *)
Record DST_DataSourceProbe := {
  definition : string;
  proto_vec : list builder;
  ipc_probe_map : gmap N probe_attempt;
  source_builder : option string;
  transaction_id : N;
  resolved : bool;
  cancelled : bool;
  cancel_timer : bool;
  probe_cb_calls : list probe_outcome
}.

(** Modelled from the spec: the constructor, which is given the definition
    and the registered drivers; nothing is probing yet. *)
Definition new_probe (in_definition : string) (in_protovec : list builder)
  : DST_DataSourceProbe :=
  {| definition := in_definition;
     proto_vec := in_protovec;
     ipc_probe_map := ∅;
     source_builder := None;
     transaction_id := 0;
     resolved := false;
     cancelled := false;
     cancel_timer := false;
     probe_cb_calls := [] |}.

(** Modelled from the spec: terminating the child of an attempt; an attempt
    still pending becomes [mark]. *)
Definition close_attempt (mark : attempt_outcome) (a : probe_attempt)
  : probe_attempt :=
  {| attempt_driver := attempt_driver a;
     child_alive := false;
     outcome := match outcome a with Pending => mark | o => o end |}.

(** Modelled from the spec: the one-shot completion.  The first outcome
    delivered resolves the coordinator, closes all attempts and calls
    [probe_cb]; later ones are discarded.  [stop_timer] tells whether this
    path stops the deadline timer. *)
Definition resolve (mark : attempt_outcome) (stop_timer is_cancel : bool)
    (winner : option string) (r : probe_outcome) (p : DST_DataSourceProbe)
  : DST_DataSourceProbe :=
  if resolved p then p
  else
    {| definition := definition p;
       proto_vec := proto_vec p;
       ipc_probe_map := close_attempt mark <$> ipc_probe_map p;
       source_builder := winner;
       transaction_id := transaction_id p;
       resolved := true;
       cancelled := is_cancel || cancelled p;
       cancel_timer := if stop_timer then false else cancel_timer p;
       probe_cb_calls := probe_cb_calls p ++ [r] |}.

(** Modelled from the spec: step 2, the first native driver, in registration
    order, that accepts the definition. *)
Fixpoint first_native (drivers : list builder) (def : string) : option string :=
  match drivers with
  | [] => None
  | d :: rest =>
      match native_probe d with
      | Some probe =>
          if probe def then Some (driver_name d) else first_native rest def
      | None => first_native rest def
      end
  end.

(** Modelled from the spec: step 3, a pending attempt with a fresh
    transaction id and a running child for a driver that needs IPC. *)
Definition spawn_attempt (p : DST_DataSourceProbe) (d : builder)
  : DST_DataSourceProbe :=
  match native_probe d with
  | Some _ => p
  | None =>
      {| definition := definition p;
         proto_vec := proto_vec p;
         ipc_probe_map :=
           <[transaction_id p :=
               {| attempt_driver := driver_name d;
                  child_alive := true;
                  outcome := Pending |}]> (ipc_probe_map p);
         source_builder := source_builder p;
         transaction_id := transaction_id p + 1;
         resolved := resolved p;
         cancelled := cancelled p;
         cancel_timer := cancel_timer p;
         probe_cb_calls := probe_cb_calls p |}
  end.

(** Modelled from the spec: step 4, arming the deadline timer. *)
Definition start_timer (p : DST_DataSourceProbe) : DST_DataSourceProbe :=
  {| definition := definition p;
     proto_vec := proto_vec p;
     ipc_probe_map := ipc_probe_map p;
     source_builder := source_builder p;
     transaction_id := transaction_id p;
     resolved := resolved p;
     cancelled := cancelled p;
     cancel_timer := true;
     probe_cb_calls := probe_cb_calls p |}.

(** Modelled from the spec: [probe_sources], steps 1 to 4 of the probe
    algorithm. *)
Definition probe_sources (p : DST_DataSourceProbe) : DST_DataSourceProbe :=
  match first_native (proto_vec p) (definition p) with
  | Some winner => resolve Cancelled true true (Some winner) (Chosen winner) p
  | None => start_timer (foldl spawn_attempt p (proto_vec p))
  end.

(** Modelled from the spec: recording the reply of an attempt. *)
Definition set_outcome (o : attempt_outcome) (a : probe_attempt)
  : probe_attempt :=
  {| attempt_driver := attempt_driver a;
     child_alive := child_alive a;
     outcome := o |}.

(** Modelled from the spec: step 6, every attempt has been rejected. *)
Definition all_rejected (m : gmap N probe_attempt) : bool :=
  bool_decide (map_Forall (λ _ a, outcome a = Rejected) m).

Definition with_attempts (m : gmap N probe_attempt) (p : DST_DataSourceProbe)
  : DST_DataSourceProbe :=
  {| definition := definition p;
     proto_vec := proto_vec p;
     ipc_probe_map := m;
     source_builder := source_builder p;
     transaction_id := transaction_id p;
     resolved := resolved p;
     cancelled := cancelled p;
     cancel_timer := cancel_timer p;
     probe_cb_calls := probe_cb_calls p |}.

(** Modelled from the spec: [complete_probe], steps 5 and 6.  A reply for a
    coordinator that has resolved, or for a transaction it does not know, is
    dropped. *)
Definition complete_probe (in_success : bool) (in_transaction : N)
    (p : DST_DataSourceProbe) : DST_DataSourceProbe :=
  if resolved p then p
  else
    match ipc_probe_map p !! in_transaction with
    | None => p
    | Some a =>
        if in_success then
          resolve Cancelled true false (Some (attempt_driver a))
            (Chosen (attempt_driver a))
            (with_attempts
               (<[in_transaction := set_outcome Accepted a]> (ipc_probe_map p))
               p)
        else
          let m :=
            <[in_transaction := set_outcome Rejected a]> (ipc_probe_map p) in
          if all_rejected m
          then resolve Rejected false false None NoDriver (with_attempts m p)
          else with_attempts m p
    end.

(** Modelled from the spec: step 7, the deadline timer firing.  A timer that
    was stopped does not fire. *)
Definition deadline (p : DST_DataSourceProbe) : DST_DataSourceProbe :=
  if cancel_timer p then resolve TimedOut true false None ProbeTimeout p else p.

(** Modelled from the spec: [cancel] behaves as the timeout with the reason
    "cancelled". *)
Definition cancel (p : DST_DataSourceProbe) : DST_DataSourceProbe :=
  resolve Cancelled true true None ProbeCancelled p.

(** Modelled from the spec: what can reach a coordinator once it is
    probing - a reply frame, the deadline, an external cancel. *)
Inductive probe_event :=
| Reply (in_success : bool) (in_transaction : N)
| DeadlineFired
| CancelCalled.

Definition step (p : DST_DataSourceProbe) (ev : probe_event)
  : DST_DataSourceProbe :=
  match ev with
  | Reply s t => complete_probe s t p
  | DeadlineFired => deadline p
  | CancelCalled => cancel p
  end.

(** Modelled from the spec: a coordinator run - [probe_sources] on a new
    coordinator, then the events in the order the coordinator lock
    serialises them. *)
Definition run_probe (drivers : list builder) (def : string)
    (evs : list probe_event) : DST_DataSourceProbe :=
  foldl step (probe_sources (new_probe def drivers)) evs.

(** The coordinator has called [probe_cb] once if it has resolved and not at
    all otherwise, and while it has not resolved its deadline timer is
    armed. *)
Definition one_shot (p : DST_DataSourceProbe) : Prop :=
  length (probe_cb_calls p) = (if resolved p then 1 else 0) ∧
  (resolved p = false → cancel_timer p = true).

(** Scenario: D1 probes natively and rejects, D2 and D3 need IPC. *)
Definition race_drivers : list builder :=
  [ {| driver_name := "D1"; native_probe := Some (λ _, false) |};
    {| driver_name := "D2"; native_probe := None |};
    {| driver_name := "D3"; native_probe := None |} ].

End ProbeCoordinator.

(** ** Source supervisor ([Datasourcetracker] of [datasourcetracker.h]) *)

Module SourceTracker.

(** Modelled from the spec: the states of a source. *)
Inductive source_state := Probing | Opening | Running | Error | Closed.

#[global] Instance source_state_eq_dec : EqDecision source_state.
Proof. solve_decision. Defined.

(** Modelled from the spec: a driver descriptor as far as opening goes.
    [OpenSource] stands for the driver's attempt to open a definition at a
    given time: [None] when the source opens, the error message otherwise. *)
Record builder := {
  driver_name : string;
  OpenSource : string → N → option string
}.

(** Modelled from the spec: the members of [KisDataSource] the supervisor
    works with, the state and the retry bookkeeping of the spec's data
    model. *)
Record KisDataSource := {
  source_id : N;
  source_definition : string;
  source_builder : builder;
  state : source_state;
  last_error : string;
  retry_due : N;
  failures : nat
}.

(** Modelled from the spec: the class is declared in the header, its member
    functions are not part of the sources.  [datasource_vec] holds the source
    objects; [error_vec] shares them, which is modelled by holding the
    runtime ids of the shared objects; [completions] lists the calls made to
    the completion callbacks, oldest first. *)
Record Datasourcetracker := {
  proto_vec : list builder;
  datasource_vec : list KisDataSource;
  error_vec : list N;
  next_source_id : N;
  completions : list (bool * string)
}.

(** Modelled from the spec: the supervisor before any driver or source is
    known. *)
Definition new_tracker : Datasourcetracker :=
  {| proto_vec := [];
     datasource_vec := [];
     error_vec := [];
     next_source_id := 0;
     completions := [] |}.

(** Modelled from the spec: the retry timer runs every 10 seconds, and the
    retry of a source that keeps failing backs off exponentially, capped at
    5 minutes. *)
Definition RETRY_INTERVAL : N := 10.
Definition RETRY_CAP : N := 300.

(** Modelled from the spec: the delay before the next retry of a source
    that has failed [n] retries. *)
Definition backoff (n : nat) : N :=
  N.min RETRY_CAP (RETRY_INTERVAL * 2 ^ N.of_nat n).

(** Modelled from the spec: [register_datasource]; the last writer wins on a
    driver name. *)
Definition register_datasource (in_builder : builder) (t : Datasourcetracker)
  : Datasourcetracker :=
  {| proto_vec :=
       filter (λ b, driver_name b ≠ driver_name in_builder) (proto_vec t)
         ++ [in_builder];
     datasource_vec := datasource_vec t;
     error_vec := error_vec t;
     next_source_id := next_source_id t;
     completions := completions t |}.

(** Modelled from the spec: [open_datasource] with a known prototype.  The
    source object is created, given the next runtime id and stored in the
    active set whether or not the open succeeds; a source whose open failed
    is in the [Error] state and in the error vector; the completion is
    called with the result. *)
Definition open_datasource_proto (in_source : string) (in_proto : builder)
    (now : N) (t : Datasourcetracker) : Datasourcetracker :=
  match OpenSource in_proto in_source now with
  | None =>
      {| proto_vec := proto_vec t;
         datasource_vec := datasource_vec t ++
           [{| source_id := next_source_id t;
               source_definition := in_source;
               source_builder := in_proto;
               state := Running;
               last_error := "";
               retry_due := 0;
               failures := 0 |}];
         error_vec := error_vec t;
         next_source_id := next_source_id t + 1;
         completions := completions t ++ [(true, "")] |}
  | Some err =>
      {| proto_vec := proto_vec t;
         datasource_vec := datasource_vec t ++
           [{| source_id := next_source_id t;
               source_definition := in_source;
               source_builder := in_proto;
               state := Error;
               last_error := err;
               retry_due := now + backoff 0;
               failures := 1 |}];
         error_vec := error_vec t ++ [next_source_id t];
         next_source_id := next_source_id t + 1;
         completions := completions t ++ [(false, err)] |}
  end.

(** Modelled from the spec: the registered driver of a given name. *)
Definition find_driver (name : string) (t : Datasourcetracker)
  : option builder :=
  head (filter (λ b, driver_name b = name) (proto_vec t)).

(** Modelled from the spec: [open_datasource] from a source line.  [driver]
    is the driver the line names or the probe coordinator chose; with none,
    or one that is not registered, no source is made and the completion gets
    the failure. *)
Definition open_datasource (in_source : string) (driver : option string)
    (now : N) (t : Datasourcetracker) : Datasourcetracker :=
  match driver ≫= λ name, find_driver name t with
  | Some proto => open_datasource_proto in_source proto now t
  | None =>
      {| proto_vec := proto_vec t;
         datasource_vec := datasource_vec t;
         error_vec := error_vec t;
         next_source_id := next_source_id t;
         completions := completions t ++ [(false, "no driver")] |}
  end.

(** Modelled from the spec: re-opening one source in the error state, from
    its stored definition. *)
Definition retry_source (now : N) (s : KisDataSource) : KisDataSource :=
  match OpenSource (source_builder s) (source_definition s) now with
  | None =>
      {| source_id := source_id s;
         source_definition := source_definition s;
         source_builder := source_builder s;
         state := Running;
         last_error := last_error s;
         retry_due := retry_due s;
         failures := 0 |}
  | Some err =>
      {| source_id := source_id s;
         source_definition := source_definition s;
         source_builder := source_builder s;
         state := Error;
         last_error := err;
         retry_due := now + backoff (failures s);
         failures := S (failures s) |}
  end.

(** Modelled from the spec: only a source in error whose retry time has come
    is re-opened. *)
Definition retry_if_due (now : N) (s : KisDataSource) : KisDataSource :=
  if bool_decide (state s = Error) && (retry_due s <=? now)%N
  then retry_source now s else s.

(** Modelled from the spec: whether the source with runtime id [i] is in
    the error state. *)
Definition in_error (srcs : list KisDataSource) (i : N) : bool :=
  existsb (λ s, (source_id s =? i)%N && bool_decide (state s = Error)) srcs.

(** Modelled from the spec: [timetracker_event], the periodic scan of the
    sources in error whose retry is due.  No source leaves the active set;
    the error vector keeps the ids of the sources still in error. *)
Definition timetracker_event (now : N) (t : Datasourcetracker)
  : Datasourcetracker :=
  let srcs := retry_if_due now <$> datasource_vec t in
  {| proto_vec := proto_vec t;
     datasource_vec := srcs;
     error_vec := filter (λ i, in_error srcs i = true) (error_vec t);
     next_source_id := next_source_id t;
     completions := completions t |}.

(** Runtime ids in use are below the next one to hand out. *)
Definition tracker_wf (t : Datasourcetracker) : Prop :=
  Forall (λ s, (source_id s < next_source_id t)%N) (datasource_vec t).

(** Scenario: a driver whose interface is not plugged in before time 25. *)
Definition unplugged_until_25 : builder :=
  {| driver_name := "linuxwifi";
     OpenSource := λ def now,
       if (now <? 25)%N then Some "no such interface" else None |}.

Definition one_driver : Datasourcetracker :=
  register_datasource unplugged_until_25 new_tracker.

End SourceTracker.

(** ** Capture frames ([KisDataSource_CapKeyedObject] of [kis_datasource.h])

    Modelled from the spec: the codec itself ([simple_datasource_proto.h] and
    its implementation) is not part of the sources; [emit] and [parse] follow
    the wire layout the specification gives for a frame. *)

Module FrameCodec.

(** [KisDataSource_CapKeyedObject] of [kis_datasource.h]: [object] points at
    [size] bytes. *)
Record KisDataSource_CapKeyedObject := {
  key : string;
  size : N;
  object : list byte
}.

(** What [HandlePacket] receives: the overall type and the keyed objects. *)
Record frame := {
  frame_type : string;
  kvpairs : list KisDataSource_CapKeyedObject
}.

(** Modelled from the spec: the frame magic of the wire layout. *)
Definition MAGIC : N := 0xDEC0DE42.

(** The low eight bits of a number as a byte. *)
Definition byte_of_N (n : N) : byte :=
  default x00 (Byte.of_N (n mod 256)).

(** Modelled from the spec: a big-endian [u16] field. *)
Definition be16 (n : N) : list byte :=
  [byte_of_N (N.shiftr n 8); byte_of_N n].

(** Modelled from the spec: a big-endian [u32] field. *)
Definition be32 (n : N) : list byte :=
  [byte_of_N (N.shiftr n 24); byte_of_N (N.shiftr n 16);
   byte_of_N (N.shiftr n 8); byte_of_N n].

(** Modelled from the spec: the value of a big-endian field. *)
Definition N_of_be (bs : list byte) : N :=
  foldl (λ acc b, (acc * 256 + Byte.to_N b)%N) 0%N bs.

(** Modelled from the spec: what a read on the stream can give - a value and
    the bytes after it, a short read, or bytes that are no frame. *)
Inductive parsed (A : Type) :=
| Parsed (a : A) (rest : list byte)
| Incomplete
| Malformed.
Arguments Parsed {A} a rest.
Arguments Incomplete {A}.
Arguments Malformed {A}.

(** Modelled from the spec: the next [n] bytes of the stream, or a short
    read when the stream does not hold them yet. *)
Definition read_bytes (n : nat) (bs : list byte) : parsed (list byte) :=
  if decide (n ≤ length bs)%nat then Parsed (take n bs) (drop n bs)
  else Incomplete.

(** Modelled from the spec: a big-endian field of [width] bytes. *)
Definition read_be (width : nat) (bs : list byte) : parsed N :=
  match read_bytes width bs with
  | Parsed f rest => Parsed (N_of_be f) rest
  | Incomplete => Incomplete
  | Malformed => Malformed
  end.

(** Modelled from the spec: a string field of [n] bytes. *)
Definition read_string (n : N) (bs : list byte) : parsed string :=
  match read_bytes (N.to_nat n) bs with
  | Parsed f rest => Parsed (String.string_of_list_byte f) rest
  | Incomplete => Incomplete
  | Malformed => Malformed
  end.

(** Reads in sequence: the next read continues on the bytes the previous one
    left, and a short or malformed read ends the sequence. *)
Definition bind_parsed {A B} (p : parsed A) (k : A → list byte → parsed B)
  : parsed B :=
  match p with
  | Parsed a rest => k a rest
  | Incomplete => Incomplete
  | Malformed => Malformed
  end.

Notation "'read' x 'then' r ':=' p 'in' k" := (bind_parsed p (λ x r, k))
  (at level 10, x name, r name, p at level 100, k at level 200, only parsing).

(** Modelled from the spec: one keyed object inside the payload,
    [key_len key obj_size obj]. *)
Definition emit_kv (o : KisDataSource_CapKeyedObject) : list byte :=
  be16 (N.of_nat (String.length (key o))) ++
  String.list_byte_of_string (key o) ++ be32 (size o) ++ object o.

(** Modelled from the spec: reading one keyed object. *)
Definition parse_kv (bs : list byte) : parsed KisDataSource_CapKeyedObject :=
  read key_len then r := read_be 2 bs in
  read k then r := read_string key_len r in
  read obj_size then r := read_be 4 r in
  read obj then r := read_bytes (N.to_nat obj_size) r in
  Parsed {| key := k; size := obj_size; object := obj |} r.

(** Modelled from the spec: the [nkv] objects inside a complete payload;
    running short there is a malformed frame, not a short read. *)
Fixpoint parse_kvs (nkv : nat) (payload : list byte)
  : option (list KisDataSource_CapKeyedObject) :=
  match nkv with
  | O => match payload with [] => Some [] | _ => None end
  | S n =>
      match parse_kv payload with
      | Parsed o rest => (o ::.) <$> parse_kvs n rest
      | _ => None
      end
  end.

Section Codec.
Variable crc32 : list byte → N.

(** Modelled from the spec: the payload, the keyed objects one after the
    other. *)
Definition emit_payload (kv : list KisDataSource_CapKeyedObject) : list byte :=
  concat (map emit_kv kv).

(** Modelled from the spec: the bytes the checksum covers, [type] up to and
    including [payload]. *)
Definition emit_body (t : string) (kv : list KisDataSource_CapKeyedObject)
  : list byte :=
  String.list_byte_of_string t ++ be32 (N.of_nat (length kv)) ++
  be32 (N.of_nat (length (emit_payload kv))) ++ emit_payload kv.

(** Modelled from the spec: [emit], the frame layout
    [MAGIC type_len type nkv payload_len payload crc32]. *)
Definition emit (t : string) (kv : list KisDataSource_CapKeyedObject)
  : list byte :=
  be32 MAGIC ++ be16 (N.of_nat (String.length t)) ++ emit_body t kv ++
  be32 (crc32 (emit_body t kv) mod 2 ^ 32).

(** Modelled from the spec: [parse] for the first frame of a stream,
    restartable after a short read. *)
Definition parse (bs : list byte) : parsed frame :=
  read magic then r := read_be 4 bs in
  if decide (magic = MAGIC) then
    read type_len then r := read_be 2 r in
    read t then r := read_string type_len r in
    read nkv then r := read_be 4 r in
    read payload_len then r := read_be 4 r in
    read payload then r := read_bytes (N.to_nat payload_len) r in
    read crc then r := read_be 4 r in
    if decide (crc = (crc32 (String.list_byte_of_string t ++ be32 nkv ++
                               be32 payload_len ++ payload) mod 2 ^ 32)%N) then
      match parse_kvs (N.to_nat nkv) payload with
      | Some kv => Parsed {| frame_type := t; kvpairs := kv |} r
      | None => Malformed
      end
    else Malformed
  else Malformed.

End Codec.

(** Modelled from the spec: the checksum polynomial is fixed by the
    implementation; this is CRC-32 with the reflected IEEE 802.3 polynomial,
    bit by bit. *)
Definition crc_bit (c : N) : N :=
  if N.odd c then N.lxor (N.shiftr c 1) 0xEDB88320 else N.shiftr c 1.

Definition crc_byte (c : N) (b : byte) : N :=
  Nat.iter 8 crc_bit (N.lxor c (Byte.to_N b)).

Definition crc32_ieee (bs : list byte) : N :=
  N.lxor (foldl crc_byte 0xFFFFFFFF%N bs) 0xFFFFFFFF.

(** Modelled from the spec: the inputs the wire format can carry - lengths
    that fit their length fields, and a [size] that is the number of payload
    bytes. *)
Definition valid_kv (o : KisDataSource_CapKeyedObject) : Prop :=
  (N.of_nat (String.length (key o)) < 2 ^ 16)%N ∧
  size o = N.of_nat (length (object o)) ∧
  (size o < 2 ^ 32)%N.

Definition valid_frame (t : string) (kv : list KisDataSource_CapKeyedObject)
  : Prop :=
  (N.of_nat (String.length t) < 2 ^ 16)%N ∧
  (N.of_nat (length kv) < 2 ^ 32)%N ∧
  Forall valid_kv kv ∧
  (N.of_nat (length (emit_payload kv)) < 2 ^ 32)%N.

(** Scenario: the keyed objects of a probe request. *)
Definition probe_kv : list KisDataSource_CapKeyedObject :=
  [ {| key := "definition"; size := 5;
       object := String.list_byte_of_string "wlan0" |} ].

End FrameCodec.


(** ** Facts about the event bus *)

Module EventBusFacts.
Import EventBus.

Section BusFacts.
Context {Payload W : Type}.
Implicit Types (b : event_bus Payload W) (e : eventbus_event Payload).
Implicit Types (l cbl : callback_listener Payload W).
Implicit Types (t : gmap string (list (callback_listener Payload W))).
Implicit Types (ops : list (bus_op Payload W)).

(** *** The subscription counter *)

Lemma ulong_small (n : N) : (n < 2 ^ ULONG_BITS)%N → ulong n = n.
Proof. intros H. unfold ulong. by apply N.mod_small. Qed.

Lemma ulong_wraps : ulong (ULONG_MAX + 1) = 0%N.
Proof. reflexivity. Qed.

(** The registration that is handed [ULONG_MAX] leaves the counter at 0. *)
Lemma register_listener_wraps b channel f :
  next_cbl_id b = ULONG_MAX →
  (register_listener channel f b).2 = ULONG_MAX ∧
  next_cbl_id (register_listener channel f b).1 = 0%N.
Proof. intros H. simpl. rewrite H. split; [done|apply ulong_wraps]. Qed.

Lemma registrations_cons ops (op : bus_op Payload W) :
  registrations (op :: ops) =
    if is_registration op then S (registrations ops) else registrations ops.
Proof.
  unfold registrations. rewrite filter_cons.
  destruct (is_registration op); case_decide; simpl; congruence.
Qed.

Lemma apply_op_next b (op : bus_op Payload W) :
  next_cbl_id (apply_op b op).1 =
    if is_registration op then ulong (next_cbl_id b + 1) else next_cbl_id b.
Proof.
  destruct op; simpl; try reflexivity.
  unfold remove_listener. by destruct (callback_id_table b !! i).
Qed.

Lemma apply_op_result b (op : bus_op Payload W) :
  (apply_op b op).2 =
    if is_registration op then Some (next_cbl_id b) else None.
Proof. by destruct op. Qed.

(** Ids are handed out consecutively from [next_cbl_id] for as long as the
    counter does not pass [ULONG_MAX]. *)
Lemma run_ops_ids ops : ∀ b,
  registrations ops = 0 ∨
    (next_cbl_id b + N.of_nat (registrations ops) ≤ 2 ^ ULONG_BITS)%N →
  (run_ops b ops).2 =
    map (λ k, (next_cbl_id b + N.of_nat k)%N) (seq 0 (registrations ops)).
Proof.
  induction ops as [|op ops IH]; intros b Hb; [reflexivity|].
  simpl. pose proof (apply_op_next b op) as Hn.
  pose proof (apply_op_result b op) as Hr.
  destruct (apply_op b op) as [b' r] eqn:Hop. simpl in Hn, Hr.
  specialize (IH b'). destruct (run_ops b' ops) as [b'' ids] eqn:Hrun.
  simpl in *. rewrite registrations_cons in *.
  destruct (is_registration op); subst r.
  - destruct Hb as [Hb|Hb]; [discriminate|].
    simpl. rewrite N.add_0_r. f_equal.
    destruct (registrations ops) as [|m] eqn:Hm.
    + rewrite IH by (by left). reflexivity.
    + rewrite ulong_small in Hn by lia.
      rewrite IH by (right; lia). rewrite <- seq_shift, map_map.
      apply map_ext. intros k. lia.
  - rewrite <- Hn. apply IH. rewrite Hn.
    destruct Hb as [Hb|Hb]; [by left|by right].
Qed.

Lemma seq_ids_ge (a : N) (n : nat) :
  Forall (λ i, (a ≤ i)%N) (map (λ k, (a + N.of_nat k)%N) (seq 0 n)).
Proof.
  apply Forall_forall. intros i [k [<- _]]%list_elem_of_In%in_map_iff. lia.
Qed.

Lemma seq_ids_sorted (a : N) (n s : nat) :
  StronglySorted N.lt (map (λ k, (a + N.of_nat k)%N) (seq s n)).
Proof.
  revert s. induction n as [|n IH]; intros s; simpl; constructor.
  - apply IH.
  - apply Forall_forall.
    intros i [k [<- Hk%in_seq]]%list_elem_of_In%in_map_iff. lia.
Qed.

Lemma sorted_lt_NoDup (ids : list N) : StronglySorted N.lt ids → NoDup ids.
Proof.
  induction 1 as [|i ids _ IH Hall]; constructor; [|done].
  intros Hin. rewrite Forall_forall in Hall.
  apply Hall in Hin. lia.
Qed.

(** *** What [remove_listener] does to the two indices *)

Lemma table_index_total t c c' : (table_index t c).1 !!! c' = t !!! c'.
Proof.
  unfold table_index. destruct (t !! c) eqn:Hc; [done|]. simpl.
  destruct (decide (c = c')) as [->|Hne].
  - by rewrite lookup_total_insert_eq, lookup_total_alt, Hc.
  - by rewrite lookup_total_insert_ne.
Qed.

Lemma remove_from_channel_total i t c c' :
  remove_from_channel i t c !!! c' = t !!! c'.
Proof.
  unfold remove_from_channel. pose proof (table_index_total t c c') as H.
  by destruct (table_index t c).
Qed.

Lemma remove_from_channels_total i cs : ∀ t c',
  foldl (remove_from_channel i) t cs !!! c' = t !!! c'.
Proof.
  induction cs as [|c cs IH]; intros t c'; [done|].
  simpl. by rewrite IH, remove_from_channel_total.
Qed.

Lemma remove_listener_table i b c :
  callback_table (remove_listener i b) !!! c = callback_table b !!! c.
Proof.
  unfold remove_listener. destruct (callback_id_table b !! i); [|done].
  apply remove_from_channels_total.
Qed.

Lemma remove_listener_id_table i b :
  callback_id_table (remove_listener i b) !! i = None.
Proof.
  unfold remove_listener. destruct (callback_id_table b !! i) eqn:Hi; [|done].
  apply lookup_delete_eq.
Qed.

Lemma remove_listener_unknown i b :
  callback_id_table b !! i = None → remove_listener i b = b.
Proof. intros H. unfold remove_listener. by rewrite H. Qed.

(** *** What the registrations do to the channel index *)

Lemma push_back_channel_total cbl t c c' :
  push_back_channel cbl t c !!! c' =
    t !!! c' ++ (if decide (c' = c) then [cbl] else []).
Proof.
  unfold push_back_channel. case_decide as Hc.
  - subst. by rewrite lookup_total_insert_eq.
  - rewrite lookup_total_insert_ne by done. by rewrite app_nil_r.
Qed.

Lemma occurrences_cons c x chans :
  occurrences c (x :: chans) =
    (if decide (x = c) then 1 else 0) + occurrences c chans.
Proof. unfold occurrences. rewrite filter_cons. by case_decide. Qed.

Lemma occurrences_pos c chans : 0 < occurrences c chans → c ∈ chans.
Proof.
  induction chans as [|x chans IH]; [unfold occurrences; simpl; lia|].
  rewrite occurrences_cons. case_decide as Hx; [subst; left|].
  intros Hpos. right. apply IH. lia.
Qed.

Lemma push_back_channels_total cbl chans : ∀ t c,
  foldl (push_back_channel cbl) t chans !!! c =
    t !!! c ++ replicate (occurrences c chans) cbl.
Proof.
  induction chans as [|x chans IH]; intros t c; simpl.
  - by rewrite app_nil_r.
  - rewrite IH, push_back_channel_total, occurrences_cons, <- app_assoc.
    f_equal. destruct (decide (c = x)) as [->|Hne].
    + by rewrite decide_True.
    + by rewrite decide_False.
Qed.

Lemma subscribers_on_cons c l (ls : list (callback_listener Payload W)) :
  subscribers_on c (l :: ls) =
    replicate (occurrences c (channels l)) l ++ subscribers_on c ls.
Proof. reflexivity. Qed.

Lemma subscribers_on_elem c l (ls : list (callback_listener Payload W)) :
  l ∈ subscribers_on c ls → l ∈ ls ∧ c ∈ channels l.
Proof.
  induction ls as [|x ls IH]; [by intros ?%elem_of_nil|].
  rewrite subscribers_on_cons. intros [Hx|Hl]%elem_of_app.
  - apply elem_of_replicate in Hx as [-> Hn].
    split; [left|]. apply occurrences_pos. lia.
  - destruct (IH Hl). split; [by right|done].
Qed.

Lemma apply_op_table b (op : bus_op Payload W) c :
  callback_table (apply_op b op).1 !!! c =
    callback_table b !!! c ++ subscribers_on c (created b [op]).
Proof.
  destruct op as [c' f|cs f|i|e]; simpl.
  - rewrite push_back_channel_total. unfold subscribers_on. simpl.
    rewrite occurrences_cons, app_nil_r. unfold occurrences. simpl.
    by repeat case_decide; subst.
  - rewrite push_back_channels_total. unfold subscribers_on. simpl.
    by rewrite app_nil_r.
  - by rewrite remove_listener_table, app_nil_r.
  - by rewrite app_nil_r.
Qed.

Lemma created_cons b (op : bus_op Payload W) ops :
  created b (op :: ops) = created b [op] ++ created (apply_op b op).1 ops.
Proof. by destruct op. Qed.

Lemma subscribers_on_app c (l1 l2 : list (callback_listener Payload W)) :
  subscribers_on c (l1 ++ l2) = subscribers_on c l1 ++ subscribers_on c l2.
Proof. unfold subscribers_on. by rewrite map_app, concat_app. Qed.

Lemma run_ops_cons b (op : bus_op Payload W) ops :
  (run_ops b (op :: ops)).1 = (run_ops (apply_op b op).1 ops).1.
Proof.
  cbn [run_ops]. destruct (apply_op b op) as [b' r]. cbn [fst].
  by destruct (run_ops b' ops).
Qed.

(** Every channel list is the one before the history followed by the entries
    of the listeners created since, in creation order. *)
Lemma run_ops_table ops : ∀ b c,
  callback_table (run_ops b ops).1 !!! c =
    callback_table b !!! c ++ subscribers_on c (created b ops).
Proof.
  induction ops as [|op ops IH]; intros b c.
  - simpl. by rewrite app_nil_r.
  - rewrite (created_cons b op ops), subscribers_on_app.
    by rewrite run_ops_cons, IH, apply_op_table, app_assoc.
Qed.

Lemma new_bus_table (fid : Z) c :
  callback_table (new_event_bus (Payload:=Payload) (W:=W) fid) !!! c = [].
Proof. simpl. by rewrite lookup_total_empty. Qed.

(** *** The dispatcher, one event at a time *)

Lemma invoke_each_app (l1 l2 : list (callback_listener Payload W)) e w :
  invoke_each (l1 ++ l2) e w =
    match invoke_each l1 e w with
    | (log1, Returned w1) =>
        let '(log2, o) := invoke_each l2 e w1 in (log1 ++ log2, o)
    | (log1, Thrown w1) => (log1, Thrown w1)
    end.
Proof.
  revert w. induction l1 as [|l l1 IH]; intros w; simpl.
  - by destruct (invoke_each l2 e w).
  - destruct (cb l e w) as [w'|w']; [|done].
    rewrite IH. destruct (invoke_each l1 e w') as [log1 [w1|w1]]; [|done].
    by destruct (invoke_each l2 e w1).
Qed.

Lemma invoke_found_each (it : option (list (callback_listener Payload W))) e w :
  invoke_found it e w = invoke_each (default [] it) e w.
Proof. by destruct it. Qed.

(** The two loops of the dispatcher visit [matching b e] from left to right. *)
Lemma dispatch_event_matching b e w :
  dispatch_event b e w = invoke_each (matching b e) e w.
Proof.
  unfold dispatch_event, matching. rewrite invoke_each_app.
  rewrite !lookup_total_alt, !invoke_found_each.
  destruct (callback_table b !! get_event_id e) as [l1|] eqn:H1;
    destruct (callback_table b !! "*") as [l2|] eqn:H2; by simpl.
Qed.

Lemma invoke_each_returns (ls : list (callback_listener Payload W)) e :
  Forall (returns_on e) ls →
  ∀ w, ∃ w', invoke_each ls e w = (map (λ l, (l, e)) ls, Returned w').
Proof.
  induction 1 as [|l ls Hl _ IH]; intros w; simpl; [by eexists|].
  destruct (Hl w) as [w1 ->]. destruct (IH w1) as [w' ->]. by eexists.
Qed.

Lemma invoke_each_throws (pre post : list (callback_listener Payload W)) l e :
  Forall (returns_on e) pre → throws_on e l →
  ∀ w, ∃ w',
    invoke_each (pre ++ l :: post) e w = (map (λ l, (l, e)) (pre ++ [l]), Thrown w').
Proof.
  intros Hpre Hl w. rewrite invoke_each_app.
  destruct (invoke_each_returns pre e Hpre w) as [w1 ->]. simpl.
  destruct (Hl w1) as [w' ->]. exists w'. by rewrite map_app.
Qed.

Lemma invoke_each_log_sub (ls : list (callback_listener Payload W)) e :
  ∀ w inv, inv ∈ (invoke_each ls e w).1 → inv.1 ∈ ls ∧ inv.2 = e.
Proof.
  induction ls as [|l ls IH]; intros w inv; simpl; [by intros ?%elem_of_nil|].
  destruct (cb l e w) as [w'|w'].
  - specialize (IH w'). destruct (invoke_each ls e w') as [log o]. simpl in *.
    intros [->|Hin]%elem_of_cons; [split; [left|done]|].
    destruct (IH _ Hin). split; [by right|done].
  - simpl. intros ->%list_elem_of_singleton. split; [left|done].
Qed.

Lemma invoke_each_sub_log b e w inv :
  inv ∈ (dispatch_event b e w).1 →
  ∃ c, inv.1 ∈ callback_table b !!! c.
Proof.
  rewrite dispatch_event_matching. intros [Hin _]%invoke_each_log_sub.
  unfold matching in Hin. apply elem_of_app in Hin as [Hin|Hin]; eauto.
Qed.

(** *** The dispatcher loop *)

Lemma dispatcher_loop_log fuel g : ∀ b w log inv,
  inv ∈ run_log (dispatcher_loop fuel g b w log) →
  inv ∈ log ∨ ∃ c, inv.1 ∈ callback_table b !!! c.
Proof.
  induction fuel as [|fuel IH]; intros b w log inv; simpl; [by left|].
  destruct (keep_running g b); [|by left].
  destruct (event_queue b) as [|e rest]; [by left|].
  pose proof (invoke_each_sub_log (pop_queue b rest) e w inv) as Hd.
  destruct (dispatch_event (pop_queue b rest) e w) as [l [w'|w']]; simpl in *.
  - intros [[Hin|Hin]%elem_of_app|Hin]%IH; auto.
  - intros [Hin|Hin]%elem_of_app; auto.
Qed.

(** The fuel [event_queue_dispatcher] gives the loop is enough: the run ends
    blocked on an empty queue, exited, or left by an exception. *)
Lemma dispatcher_loop_total g : ∀ fuel b w log,
  length (event_queue b) < fuel →
  run_status (dispatcher_loop fuel g b w log) ≠ Running.
Proof.
  induction fuel as [|fuel IH]; intros b w log Hlen; [lia|]. simpl.
  destruct (keep_running g b); [|done].
  destruct (event_queue b) as [|e rest] eqn:Hq; [done|].
  destruct (dispatch_event (pop_queue b rest) e w) as [l [w'|w']]; [|done].
  apply IH. simpl in *. lia.
Qed.

Lemma event_queue_dispatcher_total g b w :
  run_status (event_queue_dispatcher g b w) ≠ Running.
Proof. apply dispatcher_loop_total. lia. Qed.

(** Once the destructor has set [shutdown], the loop condition fails: the
    dispatcher exits and what is queued is not delivered. *)
Lemma dispatcher_exits_on_shutdown g b w :
  run_status (event_queue_dispatcher g (begin_shutdown b) w) = Exited ∧
  run_log (event_queue_dispatcher g (begin_shutdown b) w) = [].
Proof. done. Qed.

(** While the handlers return, the loop delivers the queue from the front,
    one event per iteration. *)
Lemma dispatcher_loop_prefix g fuel rest : ∀ before b w log,
  keep_running g b = true →
  event_queue b = before ++ rest →
  Forall (λ e, Forall (returns_on e) (matching b e)) before →
  ∃ w',
    dispatcher_loop (length before + fuel) g b w log =
      dispatcher_loop fuel g (pop_queue b rest) w' (log ++ deliveries b before).
Proof.
  induction before as [|e before IH]; intros b w log Hrun Hq Hret.
  - exists w. unfold deliveries. simpl. rewrite app_nil_r.
    destruct b; simpl in *; by subst.
  - apply Forall_cons in Hret as [He Hret].
    destruct (invoke_each_returns _ e He w) as [w1 Hw1].
    destruct (IH (pop_queue b (before ++ rest)) w1
                (log ++ map (λ l, (l, e)) (matching b e)))
      as [w' Hw']; [done|done|done|].
    exists w'. cbn [length Nat.add dispatcher_loop]. rewrite Hrun, Hq.
    cbn [app]. rewrite dispatch_event_matching.
    change (matching (pop_queue b (before ++ rest)) e) with (matching b e).
    rewrite Hw1, Hw'. unfold deliveries. simpl. by rewrite <- app_assoc.
Qed.

(** With handlers that return, the calls logged in one run of the dispatcher
    are those for every queued event, oldest first, and the run then blocks
    on the empty queue. *)
Lemma dispatcher_delivers_queue g b w :
  keep_running g b = true →
  Forall (λ e, Forall (returns_on e) (matching b e)) (event_queue b) →
  run_status (event_queue_dispatcher g b w) = Waiting ∧
  run_log (event_queue_dispatcher g b w) = deliveries b (event_queue b) ∧
  event_queue (run_bus (event_queue_dispatcher g b w)) = [].
Proof.
  intros Hrun Hret. unfold event_queue_dispatcher.
  destruct (dispatcher_loop_prefix g 1 [] (event_queue b) b w [] Hrun)
    as [w' Hloop]; [by rewrite app_nil_r|done|].
  replace (S (length (event_queue b))) with (length (event_queue b) + 1)
    by lia.
  rewrite Hloop. cbn [dispatcher_loop].
  change (keep_running g (pop_queue b [])) with (keep_running g b).
  by rewrite Hrun.
Qed.

(** *** Listeners and ids created by a history *)

Lemma run_ops_snd_cons b (op : bus_op Payload W) ops :
  (run_ops b (op :: ops)).2 =
    match (apply_op b op).2 with
    | Some i => i :: (run_ops (apply_op b op).1 ops).2
    | None => (run_ops (apply_op b op).1 ops).2
    end.
Proof.
  cbn [run_ops]. destruct (apply_op b op) as [b' r]. cbn [fst snd].
  by destruct (run_ops b' ops).
Qed.

Lemma created_ids ops : ∀ b, map id (created b ops) = (run_ops b ops).2.
Proof.
  induction ops as [|op ops IH]; intros b; [done|].
  rewrite run_ops_snd_cons, <- IH. by destruct op.
Qed.

Lemma id_table_created ops : ∀ b i cbl,
  callback_id_table (run_ops b ops).1 !! i = Some cbl →
  callback_id_table b !! i = Some cbl ∨ (cbl ∈ created b ops ∧ id cbl = i).
Proof.
  induction ops as [|op ops IH]; intros b i cbl; [by left|].
  rewrite run_ops_cons. intros [H|[Hin Hid]]%IH.
  - rewrite (created_cons b op ops). destruct op as [c f|cs f|j|e]; simpl in *.
    + apply lookup_insert_Some in H as [[<- <-]|[_ H]]; [|by left].
      right. split; [left|done].
    + apply lookup_insert_Some in H as [[<- <-]|[_ H]]; [|by left].
      right. split; [left|done].
    + left. unfold remove_listener in H.
      destruct (callback_id_table b !! j); [|done].
      simpl in H. by apply lookup_delete_Some in H as [_ H].
    + by left.
  - right. rewrite (created_cons b op ops).
    split; [apply elem_of_app; by right|done].
Qed.

Lemma count_replicate_id (i : N) n l :
  length (filter (λ x : callback_listener Payload W, id x = i) (replicate n l)) =
    if decide (id l = i) then n else 0.
Proof.
  induction n as [|n IH]; [by destruct (decide (id l = i))|].
  cbn [replicate]. rewrite filter_cons.
  destruct (decide (id l = i)); simpl; by rewrite IH.
Qed.

Lemma count_subscribers_absent c (i : N) (ls : list (callback_listener Payload W)) :
  i ∉ map id ls →
  length (filter (λ x : callback_listener Payload W, id x = i)
            (subscribers_on c ls)) = 0.
Proof.
  induction ls as [|l ls IH]; intros Hi; [done|].
  rewrite subscribers_on_cons, filter_app, length_app, count_replicate_id.
  simpl in Hi. apply not_elem_of_cons in Hi as [Hne Hi].
  rewrite IH by done. by rewrite decide_False.
Qed.

(** With distinct ids, the entries of subscription [cbl] in the index of
    channel [c] number the mentions of [c] in its channel list. *)
Lemma count_subscribers c cbl (ls : list (callback_listener Payload W)) :
  NoDup (map id ls) → cbl ∈ ls →
  length (filter (λ x : callback_listener Payload W, id x = id cbl)
            (subscribers_on c ls)) = occurrences c (channels cbl).
Proof.
  induction ls as [|l ls IH]; intros Hnd Hin; [by apply elem_of_nil in Hin|].
  simpl in Hnd. apply NoDup_cons in Hnd as [Hl Hnd].
  rewrite subscribers_on_cons, filter_app, length_app, count_replicate_id.
  apply elem_of_cons in Hin as [->|Hin].
  - rewrite decide_True by done. rewrite count_subscribers_absent by done. lia.
  - rewrite IH by done. rewrite decide_False; [done|].
    intros Heq. apply Hl. rewrite Heq.
    apply list_elem_of_In, in_map, list_elem_of_In, Hin.
Qed.

Lemma invocations_of_map (i : N) e (ls : list (callback_listener Payload W)) :
  invocations_of i (map (λ l, (l, e)) ls) =
    length (filter (λ x : callback_listener Payload W, id x = i) ls).
Proof.
  unfold invocations_of. induction ls as [|l ls IH]; [done|].
  simpl. rewrite !filter_cons. simpl. case_decide; simpl; by rewrite IH.
Qed.

(** On a bus grown from a fresh one, the dispatcher visits the entries of the
    listeners created so far: those of the event's channel, then those of
    ["*"]. *)
Lemma matching_created (fid : Z) ops e :
  matching (run_ops (new_event_bus fid) ops).1 e =
    subscribers_on (get_event_id e) (created (new_event_bus fid) ops) ++
    subscribers_on "*" (created (new_event_bus fid) ops).
Proof. unfold matching. by rewrite !run_ops_table, !new_bus_table. Qed.

Lemma matching_returns (fid : Z) ops e :
  Forall (returns_on e) (created (new_event_bus fid) ops) →
  Forall (returns_on e) (matching (run_ops (new_event_bus fid) ops).1 e).
Proof.
  rewrite matching_created, !Forall_forall.
  intros H l [[Hl _]%subscribers_on_elem|[Hl _]%subscribers_on_elem]%elem_of_app;
    by apply H.
Qed.

Lemma new_bus_ids (fid : Z) ops :
  (N.of_nat (registrations ops) ≤ ULONG_MAX)%N →
  (run_ops (new_event_bus (Payload:=Payload) (W:=W) fid) ops).2 =
    map N.of_nat (seq 1 (registrations ops)).
Proof.
  intros Hn. rewrite run_ops_ids.
  - rewrite <- seq_shift, map_map. apply map_ext. intros k. simpl. lia.
  - right. simpl. unfold ULONG_MAX in Hn. lia.
Qed.

Lemma fresh_bus_ids_NoDup (fid : Z) ops :
  (N.of_nat (registrations ops) ≤ ULONG_MAX)%N →
  NoDup (run_ops (new_event_bus (Payload:=Payload) (W:=W) fid) ops).2.
Proof.
  intros Hn. rewrite (new_bus_ids fid ops Hn). apply sorted_lt_NoDup.
  pose proof (seq_ids_sorted 0 (registrations ops) 1) as Hs.
  erewrite map_ext in Hs; [exact Hs|]. intros k. simpl. lia.
Qed.

Lemma apply_op_event_id b (op : bus_op Payload W) :
  eventbus_event_id (apply_op b op).1 = eventbus_event_id b.
Proof.
  destruct op as [c f|cs f|i|e]; try done.
  simpl. unfold remove_listener. by destruct (callback_id_table b !! i).
Qed.

Lemma run_ops_event_id ops : ∀ b,
  eventbus_event_id (run_ops b ops).1 = eventbus_event_id b.
Proof.
  induction ops as [|op ops IH]; intros b; [done|].
  by rewrite run_ops_cons, IH, apply_op_event_id.
Qed.

(** *** Subscription ids *)

(** C4. The ids returned by the two overloads of [register_listener], taken
    in registration order over any history of calls on a fresh bus, are
    [1, 2, 3, ...]: each is at least 1, no two are equal, and each is larger
    than the one before.  The counter is an [unsigned long]; the statement
    covers the first [ULONG_MAX] registrations, after which it wraps. *)
Theorem register_listener_ids (fid : Z) ops :
  (N.of_nat (registrations ops) ≤ ULONG_MAX)%N →
  let ids := (run_ops (new_event_bus fid) ops).2 in
  ids = map N.of_nat (seq 1 (registrations ops)) ∧
  Forall (λ i, (1 ≤ i)%N) ids ∧
  NoDup ids ∧
  StronglySorted N.lt ids.
Proof.
  intros Hn ids. subst ids. rewrite (new_bus_ids fid ops Hn).
  assert (Hs : StronglySorted N.lt (map N.of_nat (seq 1 (registrations ops)))).
  { pose proof (seq_ids_sorted 0 (registrations ops) 1) as Hs.
    erewrite map_ext in Hs; [exact Hs|]. intros k. simpl. lia. }
  split; [done|]. split; [|split; [by apply sorted_lt_NoDup|done]].
  apply Forall_forall. intros i [k [<- Hk%in_seq]]%list_elem_of_In%in_map_iff.
  lia.
Qed.

(** *** Delivery order and multiplicity *)

(** When the handlers return, the loop over a list calls each of them on the
    event, on the state the one before left. *)
Lemma invoke_each_runs (ls : list (callback_listener Payload W)) e :
  Forall (returns_on e) ls →
  ∀ w, invoke_each ls e w =
         (map (λ l, (l, e)) ls, Returned (run_handlers ls e w)).
Proof.
  induction 1 as [|l ls Hl _ IH]; intros w; [done|].
  cbn [invoke_each run_handlers foldl map]. destruct (Hl w) as [w1 Hw1].
  rewrite Hw1, IH. by cbn [world_after].
Qed.

Lemma dispatch_event_runs b e w :
  Forall (returns_on e) (matching b e) →
  dispatch_event b e w =
    (map (λ l, (l, e)) (matching b e),
     Returned (run_handlers (matching b e) e w)).
Proof. intros H. by rewrite dispatch_event_matching, invoke_each_runs. Qed.

(** With distinct ids, the entries of the list of channel [c] that carry the
    id of subscription [cbl] are copies of [cbl], one per mention of [c]. *)
Lemma filter_replicate_id (i : N) n l :
  filter (λ x : callback_listener Payload W, id x = i) (replicate n l) =
    if decide (id l = i) then replicate n l else [].
Proof.
  induction n as [|n IH]; [by destruct (decide (id l = i))|].
  cbn [replicate]. rewrite filter_cons, IH.
  by destruct (decide (id l = i)).
Qed.

Lemma filter_subscribers_absent c (i : N)
    (ls : list (callback_listener Payload W)) :
  i ∉ map id ls →
  filter (λ x : callback_listener Payload W, id x = i) (subscribers_on c ls)
    = [].
Proof.
  induction ls as [|l ls IH]; intros Hi; [done|].
  rewrite subscribers_on_cons, filter_app, filter_replicate_id.
  simpl in Hi. apply not_elem_of_cons in Hi as [Hne Hi].
  rewrite IH by done. by rewrite decide_False.
Qed.

Lemma filter_subscribers c cbl (ls : list (callback_listener Payload W)) :
  NoDup (map id ls) → cbl ∈ ls →
  filter (λ x : callback_listener Payload W, id x = id cbl)
    (subscribers_on c ls) = replicate (occurrences c (channels cbl)) cbl.
Proof.
  induction ls as [|l ls IH]; intros Hnd Hin; [by apply elem_of_nil in Hin|].
  simpl in Hnd. apply NoDup_cons in Hnd as [Hl Hnd].
  rewrite subscribers_on_cons, filter_app, filter_replicate_id.
  apply elem_of_cons in Hin as [->|Hin].
  - rewrite decide_True by done.
    by rewrite filter_subscribers_absent, app_nil_r.
  - rewrite IH by done. rewrite decide_False; [done|].
    intros Heq. apply Hl. rewrite Heq.
    apply list_elem_of_In, in_map, list_elem_of_In, Hin.
Qed.

(** C3. For one event, the dispatcher looks up the list of the event's
    channel and the list of ["*"] and calls the handlers of the subscribers
    of the event's channel in the order they were registered, then those of
    the subscribers of ["*"] in the order they were registered: each handler
    is run on that event and on the state the handler before it left, and
    the calls made are these, in this order (a subscriber is listed once per
    mention of the channel in its channel list). *)
Theorem dispatch_in_insertion_order (fid : Z)
    (regs : list (registration Payload W)) e w :
  Forall (returns_on e) (registered_listeners fid regs) →
  dispatch_event (registered fid regs) e w =
    (map (λ l, (l, e))
       (subscribers_on (get_event_id e) (registered_listeners fid regs) ++
        subscribers_on "*" (registered_listeners fid regs)),
     Returned
       (run_handlers
          (subscribers_on (get_event_id e) (registered_listeners fid regs) ++
           subscribers_on "*" (registered_listeners fid regs)) e w)).
Proof.
  intros Hret. unfold registered, registered_listeners in *.
  rewrite dispatch_event_runs by (by apply matching_returns).
  by rewrite matching_created.
Qed.

(** C2 (as amended). For one event, the dispatcher runs the handlers of the
    listeners it visits in order, each on that event and on the state the
    one before left; for a subscription that is in the id index, the
    listeners visited that carry its id are the subscription itself, once
    per mention of the event's channel in the subscription's channel list
    plus once per mention of ["*"] in it, and that is how often its handler
    is called. *)
Theorem delivered_once_per_mention (fid : Z) ops e w i cbl :
  (N.of_nat (registrations ops) ≤ ULONG_MAX)%N →
  Forall (returns_on e) (created (new_event_bus fid) ops) →
  callback_id_table (run_ops (new_event_bus fid) ops).1 !! i = Some cbl →
  dispatch_event (run_ops (new_event_bus fid) ops).1 e w =
    (map (λ l, (l, e)) (matching (run_ops (new_event_bus fid) ops).1 e),
     Returned
       (run_handlers (matching (run_ops (new_event_bus fid) ops).1 e) e w)) ∧
  filter (λ l, id l = i) (matching (run_ops (new_event_bus fid) ops).1 e) =
    replicate
      (occurrences (get_event_id e) (channels cbl) +
       occurrences "*" (channels cbl)) cbl ∧
  invocations_of i (dispatch_event (run_ops (new_event_bus fid) ops).1 e w).1 =
    occurrences (get_event_id e) (channels cbl) + occurrences "*" (channels cbl).
Proof.
  intros Hn Hret Hi.
  pose proof (dispatch_event_runs _ e w (matching_returns fid ops e Hret))
    as Hrun.
  apply id_table_created in Hi as [Hi|[Hin <-]]; [by simpl in Hi|].
  assert (Hnd : NoDup (map id (created (new_event_bus fid) ops))).
  { rewrite created_ids. by apply (fresh_bus_ids_NoDup fid). }
  split; [exact Hrun|]. split.
  - rewrite matching_created, filter_app, !filter_subscribers by done.
    by rewrite replicate_add.
  - rewrite Hrun. cbn [fst].
    rewrite invocations_of_map, matching_created, filter_app, length_app.
    by rewrite !count_subscribers.
Qed.

(** *** Handlers that throw *)

(** C6 (as amended). The dispatcher has no handler around [cbl->cb(e)]: when
    a handler throws while an event is being delivered, the events queued
    before it have been delivered, the handlers visited before the throwing
    one have run, the handlers after it are not called for that event, and
    the exception leaves [event_queue_dispatcher], so the events still
    queued are not delivered. *)
Theorem handler_exception_leaves_dispatcher g b before e rest w pre l post :
  keep_running g b = true →
  event_queue b = before ++ e :: rest →
  Forall (λ e', Forall (returns_on e') (matching b e')) before →
  matching b e = pre ++ l :: post →
  Forall (returns_on e) pre →
  throws_on e l →
  run_status (event_queue_dispatcher g b w) = Terminated ∧
  run_log (event_queue_dispatcher g b w) =
    deliveries b before ++ map (λ x, (x, e)) (pre ++ [l]) ∧
  event_queue (run_bus (event_queue_dispatcher g b w)) = rest.
Proof.
  intros Hrun Hq Hbefore Hm Hpre Hl. unfold event_queue_dispatcher.
  destruct (dispatcher_loop_prefix g (S (S (length rest))) (e :: rest)
              before b w [] Hrun Hq Hbefore) as [w1 Hloop].
  replace (S (length (event_queue b)))
    with (length before + S (S (length rest)))
    by (rewrite Hq, length_app; simpl; lia).
  rewrite Hloop. cbn [dispatcher_loop].
  change (keep_running g (pop_queue b (e :: rest))) with (keep_running g b).
  rewrite Hrun. cbn [event_queue pop_queue].
  rewrite dispatch_event_matching.
  change (matching (pop_queue (pop_queue b (e :: rest)) rest) e)
    with (matching b e).
  rewrite Hm. destruct (invoke_each_throws pre post l e Hpre Hl w1) as [w' ->].
  by simpl.
Qed.

(** *** Subscriptions with no channel *)

Lemma reachable_entry_channel (fid : Z) ops ops' f c l :
  let b := (run_ops (new_event_bus fid) ops).1 in
  let b' := (register_listener_list [] f b).1 in
  l ∈ callback_table (run_ops b' ops').1 !!! c → c ∈ channels l.
Proof.
  intros b b'. rewrite run_ops_table. subst b'. cbn [register_listener_list fst].
  cbn [callback_table foldl]. subst b. rewrite run_ops_table, new_bus_table.
  simpl. by intros [[_ H]%subscribers_on_elem|[_ H]%subscribers_on_elem]%elem_of_app.
Qed.

Lemma id_table_keys_created (fid : Z) ops i cbl :
  (N.of_nat (registrations ops) ≤ ULONG_MAX)%N →
  callback_id_table (run_ops (new_event_bus fid) ops).1 !! i = Some cbl →
  (1 ≤ i ≤ N.of_nat (registrations ops))%N.
Proof.
  intros Hn [H|[Hin <-]]%id_table_created; [by simpl in H|].
  assert (Hid : id cbl ∈ map id (created (new_event_bus fid) ops)).
  { apply list_elem_of_In, in_map, list_elem_of_In, Hin. }
  rewrite created_ids, (new_bus_ids fid ops Hn) in Hid.
  apply list_elem_of_In, in_map_iff in Hid as [k [<- Hk%in_seq]]. lia.
Qed.

Lemma run_ops_next_from ops : ∀ b,
  (next_cbl_id b + N.of_nat (registrations ops) < 2 ^ ULONG_BITS)%N →
  next_cbl_id (run_ops b ops).1 =
    (next_cbl_id b + N.of_nat (registrations ops))%N.
Proof.
  induction ops as [|op ops IH]; intros b Hb.
  { unfold registrations. simpl. lia. }
  rewrite registrations_cons in *. rewrite run_ops_cons.
  pose proof (apply_op_next b op) as Hn.
  destruct (is_registration op).
  - rewrite ulong_small in Hn by lia. rewrite IH; rewrite Hn; lia.
  - rewrite IH; rewrite Hn; [done|lia].
Qed.

Lemma run_ops_next (fid : Z) ops :
  (N.of_nat (registrations ops) < ULONG_MAX)%N →
  next_cbl_id (run_ops (new_event_bus (Payload:=Payload) (W:=W) fid) ops).1 =
    N.of_nat (S (registrations ops)).
Proof.
  intros Hn. rewrite run_ops_next_from; simpl; unfold ULONG_MAX in Hn; lia.
Qed.

(** C10. Registering with an empty channel list on a bus grown from a fresh
    one returns the next id (larger than every id handed out before and not
    in the id index), records the subscription in the id index and leaves
    every channel list as it was; whatever is registered, removed or
    published afterwards, the dispatcher never calls that subscription; and
    [remove_listener] on the id takes it out of the id index again. *)
Theorem register_empty_channel_list (fid : Z) ops f :
  (N.of_nat (registrations ops) < ULONG_MAX)%N →
  let b := (run_ops (new_event_bus fid) ops).1 in
  let b' := (register_listener_list [] f b).1 in
  let i := (register_listener_list [] f b).2 in
  let cbl := {| channels := []; cb := f; id := i |} in
  i = N.of_nat (S (registrations ops)) ∧
  Forall (λ j, (j < i)%N) (run_ops (new_event_bus fid) ops).2 ∧
  callback_id_table b !! i = None ∧
  callback_id_table b' !! i = Some cbl ∧
  callback_table b' = callback_table b ∧
  (∀ ops' g w,
     cbl ∉ (run_log (event_queue_dispatcher g (run_ops b' ops').1 w)).*1) ∧
  callback_id_table (remove_listener i b') !! i = None ∧
  callback_table (remove_listener i b') = callback_table b.
Proof.
  intros Hn b b' i cbl.
  assert (Hi : i = N.of_nat (S (registrations ops))).
  { subst i b. cbn [register_listener_list snd id]. by apply run_ops_next. }
  assert (Hfresh : callback_id_table b !! i = None).
  { destruct (callback_id_table b !! i) as [x|] eqn:Hx; [|done].
    apply id_table_keys_created in Hx; lia. }
  split; [done|]. split.
  { rewrite new_bus_ids by lia. apply Forall_forall.
    intros j [k [<- Hk%in_seq]]%list_elem_of_In%in_map_iff. lia. }
  split; [done|]. split; [apply lookup_insert_eq|]. split; [done|]. split.
  { intros ops' g w [inv [Heq Hin]]%list_elem_of_fmap.
    apply dispatcher_loop_log in Hin as [Hin|[c Hin]];
      [by apply elem_of_nil in Hin|].
    apply reachable_entry_channel in Hin. rewrite <- Heq in Hin.
    by apply elem_of_nil in Hin. }
  split; [apply remove_listener_id_table|].
  unfold remove_listener. subst b'. cbn [register_listener_list fst].
  cbn [callback_id_table]. by rewrite lookup_insert_eq.
Qed.

End BusFacts.

(** *** The event id of an event *)

(** C5 (as amended). [get_eventbus_event] returns an event that carries the
    one integer the bus obtained in its constructor for the field
    ["kismet.eventbus.event"], whatever the type name and whatever calls the
    bus has served since, and the type name as its channel key: two events of
    the same type name agree on both, two events of different type names
    carry the same integer and differ in the channel key only. *)
Theorem get_eventbus_event_id {Payload W : Type} (fid : Z)
    (ops : list (bus_op Payload W)) (t1 t2 : string) :
  let b := (run_ops (new_event_bus fid) ops).1 in
  tracker_id (get_eventbus_event b t1) = fid ∧
  tracker_id (get_eventbus_event b t1) = tracker_id (get_eventbus_event b t2) ∧
  get_event_id (get_eventbus_event b t1) = t1 ∧
  (get_eventbus_event b t1 = get_eventbus_event b t2 ↔ t1 = t2).
Proof.
  intros b. assert (Hb : eventbus_event_id b = fid).
  { subst b. by rewrite run_ops_event_id. }
  unfold get_eventbus_event. simpl. rewrite Hb.
  repeat split; [by intros [=]|by intros ->].
Qed.

(** *** The scenarios, evaluated *)

Import Scenarios.

Lemma recording_returns tag chans i e :
  returns_on e (listener chans (recording tag) i).
Proof. intros w. by eexists. Qed.

Lemma throwing_throws chans i e : throws_on e (listener chans throwing i).
Proof. intros w. by eexists. Qed.

(** C1. Register a handler on ["x"] (id 1), remove id 1, publish on ["x"]:
    the id index no longer knows id 1, and the dispatcher still calls the
    handler with the event, because [remove_listener] erases from a copy of
    the channel list. *)
Theorem removed_listener_still_called :
  let r := event_queue_dispatcher globalreg_running
             (run_ops fresh_bus removed_then_published).1 [] in
  (run_ops fresh_bus removed_then_published).2 = [1%N] ∧
  callback_id_table (run_bus r) !! 1%N = None ∧
  invocations_of 1 (run_log r) = 1 ∧
  run_world r = [(1%N, Some 7%Z)] ∧
  run_status r = Waiting.
Proof. by vm_compute. Qed.

(** Two registrations, one through each overload: ids 1 and 2. *)
Lemma register_listener_ids_witness :
  (run_ops fresh_bus two_then_none).2 = [1%N; 2%N] ∧
  NoDup (run_ops fresh_bus two_then_none).2 ∧
  StronglySorted N.lt (run_ops fresh_bus two_then_none).2.
Proof.
  assert (Hn : (N.of_nat (registrations two_then_none) ≤ ULONG_MAX)%N)
    by (by vm_compute).
  destruct (register_listener_ids 42 two_then_none Hn) as (Hids & _ & Hnd & Hs).
  split; [exact Hids|]. split; [exact Hnd|exact Hs].
Defined.

(** Fan-out: A and B on ["x"], C on ["*"], one event on ["x"] with payload
    7: A, B, C are called in this order, and each has seen payload 7. *)
Lemma dispatch_in_insertion_order_witness :
  dispatch_event (registered 42 fan_out_registrations) (event_on "x" 7) [] =
    ([(listener ["x"] (recording 1) 1, event_on "x" 7);
      (listener ["x"] (recording 2) 2, event_on "x" 7);
      (listener ["*"] (recording 3) 3, event_on "x" 7)],
     Returned [(1%N, Some 7%Z); (2%N, Some 7%Z); (3%N, Some 7%Z)]).
Proof.
  apply (dispatch_in_insertion_order 42 fan_out_registrations
           (event_on "x" 7) []).
  repeat constructor; apply recording_returns.
Defined.

(** A, B and C are each called once, in this order, with payload 7. *)
Example fan_out_trace :
  (dispatch_event (run_ops fresh_bus fan_out).1 (event_on "x" 7) []).2 =
    Returned [(1%N, Some 7%Z); (2%N, Some 7%Z); (3%N, Some 7%Z)].
Proof. reflexivity. Qed.

(** A subscription registered with the list ["x"; "*"] is not called exactly
    once for an event on ["x"]: it has one entry in each of the two lists the
    dispatcher walks, and its handler has recorded payload 7 twice. *)
Lemma listed_twice_called_twice :
  (dispatch_event (run_ops fresh_bus channel_and_star).1 (event_on "x" 7) []).2
    = Returned [(1%N, Some 7%Z); (1%N, Some 7%Z)] ∧
  ¬ invocations_of 1
      (dispatch_event (run_ops fresh_bus channel_and_star).1 (event_on "x" 7) []).1
    = 1.
Proof. split; [reflexivity|by vm_compute]. Qed.

(** The same with a channel named twice in the list. *)
Example channel_twice_called_twice :
  (dispatch_event (run_ops fresh_bus channel_twice).1 (event_on "x" 7) []).2 =
    Returned [(1%N, Some 7%Z); (1%N, Some 7%Z)].
Proof. reflexivity. Qed.

(** One mention of ["x"] and one of ["*"]: the handler runs twice. *)
Lemma delivered_once_per_mention_witness :
  dispatch_event (run_ops fresh_bus channel_and_star).1 (event_on "x" 7) [] =
    ([(listener ["x"; "*"] (recording 1) 1, event_on "x" 7);
      (listener ["x"; "*"] (recording 1) 1, event_on "x" 7)],
     Returned [(1%N, Some 7%Z); (1%N, Some 7%Z)]) ∧
  invocations_of 1
    (dispatch_event (run_ops fresh_bus channel_and_star).1 (event_on "x" 7) []).1
  = 2.
Proof.
  assert (Hn : (N.of_nat (registrations channel_and_star) ≤ ULONG_MAX)%N)
    by (by vm_compute).
  assert (Hret : Forall (returns_on (event_on "x" 7))
                   (created fresh_bus channel_and_star)).
  { repeat constructor; apply recording_returns. }
  destruct (delivered_once_per_mention 42 channel_and_star (event_on "x" 7)
              [] 1 (listener ["x"; "*"] (recording 1) 1) Hn Hret eq_refl)
    as (Hd & _ & Hc).
  split; [exact Hd|exact Hc].
Defined.

(** A throwing handler registered before a second handler on ["x"], two
    events queued: the second handler is never called, the dispatcher is left
    by the exception, and the second event stays in the queue. *)
Lemma thrower_stops_dispatcher :
  let r := event_queue_dispatcher globalreg_running
             (run_ops fresh_bus thrower_first).1 [] in
  invocations_of 2 (run_log r) = 0 ∧
  run_status r = Terminated ∧
  event_queue (run_bus r) = [event_on "x" 8].
Proof. by vm_compute. Qed.

(** The same run: only the throwing handler has been called. *)
Lemma handler_exception_leaves_dispatcher_witness :
  let r := event_queue_dispatcher globalreg_running
             (run_ops fresh_bus thrower_first).1 [] in
  run_status r = Terminated ∧
  run_log r = [(listener ["x"] throwing 1, event_on "x" 7)] ∧
  event_queue (run_bus r) = [event_on "x" 8].
Proof.
  apply (handler_exception_leaves_dispatcher globalreg_running
           (run_ops fresh_bus thrower_first).1 [] (event_on "x" 7)
           [event_on "x" 8] [] [] (listener ["x"] throwing 1)
           [listener ["x"] (recording 2) 2]).
  - reflexivity.
  - reflexivity.
  - constructor.
  - reflexivity.
  - constructor.
  - apply throwing_throws.
Defined.

(** After two registrations, one with no channel gets id 3. *)
Lemma register_empty_channel_list_witness :
  let b := (run_ops fresh_bus two_then_none).1 in
  (register_listener_list [] (recording 3) b).2 = 3%N ∧
  callback_table (register_listener_list [] (recording 3) b).1 = callback_table b ∧
  callback_id_table
    (remove_listener 3 (register_listener_list [] (recording 3) b).1) !! 3%N = None.
Proof.
  assert (Hn : (N.of_nat (registrations two_then_none) < ULONG_MAX)%N)
    by (by vm_compute).
  destruct (register_empty_channel_list 42 two_then_none (recording 3) Hn)
    as (Hi & _ & _ & _ & Ht & _ & Hr & _).
  split; [exact Hi|]. split; [exact Ht|exact Hr].
Defined.

(** Events of two different type names carry the same integer. *)
Lemma distinct_types_same_id :
  "SOURCE_OPENED" ≠ "SOURCE_ERROR" ∧
  tracker_id (get_eventbus_event fresh_bus "SOURCE_OPENED") =
    tracker_id (get_eventbus_event fresh_bus "SOURCE_ERROR").
Proof. split; [discriminate|reflexivity]. Qed.

End EventBusFacts.

(** ** More about the event bus: ids, the two indices, the dispatcher *)

Module EventBusInvariants.
Import EventBus EventBusFacts.

Section BusInvariants.
Context {Payload W : Type}.
Implicit Types (b : event_bus Payload W) (e : eventbus_event Payload).
Implicit Types (l cbl : callback_listener Payload W).
Implicit Types (ops : list (bus_op Payload W)).

(** *** The counter, wrap-around included *)

Lemma ulong_lt (n : N) : (ulong n < 2 ^ ULONG_BITS)%N.
Proof. unfold ulong. by apply N.mod_lt. Qed.

Lemma ulong_add_l (a k : N) : ulong (ulong a + k) = ulong (a + k).
Proof. unfold ulong. by rewrite N.Div0.add_mod_idemp_l. Qed.

Lemma run_ops_ids_modular ops : ∀ b,
  (next_cbl_id b < 2 ^ ULONG_BITS)%N →
  (run_ops b ops).2 =
    map (λ k, ulong (next_cbl_id b + N.of_nat k)) (seq 0 (registrations ops)).
Proof.
  induction ops as [|op ops IH]; intros b Hb; [reflexivity|].
  rewrite run_ops_snd_cons, registrations_cons, apply_op_result.
  pose proof (apply_op_next b op) as Hn.
  destruct (is_registration op).
  - rewrite IH by (rewrite Hn; apply ulong_lt). rewrite Hn. cbn [seq map].
    change (N.of_nat 0) with 0%N. rewrite N.add_0_r.
    rewrite (ulong_small (next_cbl_id b)) by exact Hb. f_equal.
    rewrite <- seq_shift, map_map. apply map_ext. intros k.
    rewrite ulong_add_l. f_equal. lia.
  - rewrite IH by (by rewrite Hn). by rewrite Hn.
Qed.

(** X1. Over any history of calls on a fresh bus - registrations through
    either overload, removals, publications - the registration number [k]
    (counting from 0) returns [(1 + k) mod 2^64]: the ids are consecutive
    from 1, removals never give an id back, and after [ULONG_MAX] the
    counter goes on through 0. *)
Theorem register_ids_modular (fid : Z) ops :
  (run_ops (new_event_bus fid) ops).2 =
    map (λ k, ulong (1 + N.of_nat k)) (seq 0 (registrations ops)).
Proof. by rewrite run_ops_ids_modular. Qed.

(** *** Registration *)

(** The single-channel overload of [register_listener] does what the list
    overload does on a one-element list. *)
Lemma register_listener_singleton channel (f : cb_func Payload W) b :
  register_listener channel f b = register_listener_list [channel] f b.
Proof. reflexivity. Qed.

Lemma occurrences_absent c (chans : list string) :
  c ∉ chans → occurrences c chans = 0.
Proof.
  induction chans as [|x chans IH]; [done|].
  intros [Hx Hc]%not_elem_of_cons. rewrite occurrences_cons, IH by done.
  by rewrite decide_False.
Qed.

Lemma occurrences_present c (chans : list string) :
  c ∈ chans → 0 < occurrences c chans.
Proof.
  induction chans as [|x chans IH]; [by intros ?%elem_of_nil|].
  rewrite occurrences_cons. intros [->|Hc]%elem_of_cons.
  - rewrite decide_True by done. lia.
  - specialize (IH Hc). lia.
Qed.

(** X2. A registration leaves alone the deliveries of the channels it does
    not name: for an event whose channel is not in the new subscription's
    list, and when the list does not name ["*"], the dispatcher visits the
    same listeners in the same order as before the registration. *)
Theorem register_leaves_other_channels chans (f : cb_func Payload W) b e :
  get_event_id e ∉ chans →
  "*" ∉ chans →
  matching (register_listener_list chans f b).1 e = matching b e.
Proof.
  intros He Hstar. unfold matching. simpl.
  rewrite !push_back_channels_total, !occurrences_absent by done.
  simpl. by rewrite !app_nil_r.
Qed.

(** X3. A registration never drops or reorders what was subscribed before:
    for every event, the listeners the dispatcher visited before the
    registration are still visited afterwards, in the same relative order;
    the new subscription's entries come in at the end of the event's list
    and at the end of the ["*"] list. *)
Theorem register_keeps_existing_order chans (f : cb_func Payload W) b e :
  matching b e `sublist_of` matching (register_listener_list chans f b).1 e.
Proof.
  unfold matching. simpl. rewrite !push_back_channels_total.
  apply sublist_app; by apply sublist_inserts_r.
Qed.

(** *** The two indices *)

Lemma subscribers_on_intro c l (ls : list (callback_listener Payload W)) :
  l ∈ ls → c ∈ channels l → l ∈ subscribers_on c ls.
Proof.
  induction ls as [|x ls IH]; [by intros ?%elem_of_nil|].
  rewrite subscribers_on_cons. intros [->|Hl]%elem_of_cons Hc.
  - apply elem_of_app. left. apply elem_of_replicate. split; [done|].
    apply occurrences_present in Hc. lia.
  - apply elem_of_app. right. by apply IH.
Qed.

(** X4. On a bus grown from a fresh one by any history, a subscription found
    in the id index under [i] has id [i] and has an entry in the list of
    every channel of its channel list. *)
Theorem id_index_entries_installed (fid : Z) ops i cbl :
  callback_id_table (run_ops (new_event_bus fid) ops).1 !! i = Some cbl →
  id cbl = i ∧
  Forall (λ c, cbl ∈ callback_table (run_ops (new_event_bus fid) ops).1 !!! c)
    (channels cbl).
Proof.
  intros [H|[Hin Hid]]%id_table_created; [by simpl in H|].
  split; [done|]. apply Forall_forall. intros c Hc.
  rewrite run_ops_table, new_bus_table. simpl.
  by apply subscribers_on_intro.
Qed.

Lemma id_index_fresh (fid : Z) ops :
  (N.of_nat (registrations ops) < ULONG_MAX)%N →
  callback_id_table (run_ops (new_event_bus (Payload:=Payload) (W:=W) fid) ops).1
    !! next_cbl_id (run_ops (new_event_bus (Payload:=Payload) (W:=W) fid) ops).1
  = None.
Proof.
  intros Hn. rewrite run_ops_next by done.
  destruct (callback_id_table _ !! _) as [x|] eqn:Hx; [|done].
  apply id_table_keys_created in Hx; lia.
Qed.

(** X5. Registering a subscription and removing the id it returned gives the
    id index back as it was before the registration; the counter is not
    taken back. *)
Theorem register_then_remove_id_index (fid : Z) ops chans
    (f : cb_func Payload W) :
  (N.of_nat (registrations ops) < ULONG_MAX)%N →
  let b := (run_ops (new_event_bus fid) ops).1 in
  let b' := (register_listener_list chans f b).1 in
  let i := (register_listener_list chans f b).2 in
  callback_id_table (remove_listener i b') = callback_id_table b ∧
  next_cbl_id (remove_listener i b') = next_cbl_id b'.
Proof.
  intros Hn b b' i. pose proof (id_index_fresh fid ops Hn) as Hfresh.
  fold b in Hfresh. unfold remove_listener. subst b' i.
  cbn [register_listener_list fst snd callback_id_table id].
  rewrite lookup_insert_eq. cbn [callback_id_table next_cbl_id channels].
  split; [by rewrite delete_insert_eq, delete_id|done].
Qed.

(** *** Removal *)

(** X6. [remove_listener] is idempotent: removing an id a second time leaves
    the bus exactly as the first removal left it, whether or not the id was
    known. *)
Theorem remove_listener_idempotent i b :
  remove_listener i (remove_listener i b) = remove_listener i b.
Proof. apply remove_listener_unknown, remove_listener_id_table. Qed.

(** X7. Removing an id that was never handed out - 0, or a number above the
    count of registrations so far - is a no-op: the bus is unchanged. *)
Theorem remove_unissued_id (fid : Z) ops i :
  (N.of_nat (registrations ops) ≤ ULONG_MAX)%N →
  i = 0%N ∨ (N.of_nat (registrations ops) < i)%N →
  remove_listener i (run_ops (new_event_bus fid) ops).1 =
    (run_ops (new_event_bus fid) ops).1.
Proof.
  intros Hn Hi. apply remove_listener_unknown.
  destruct (callback_id_table _ !! i) as [x|] eqn:Hx; [|done].
  apply id_table_keys_created in Hx; lia.
Qed.

Lemma run_ops_app ops1 : ∀ ops2 b,
  (run_ops b (ops1 ++ ops2)).1 = (run_ops (run_ops b ops1).1 ops2).1.
Proof.
  induction ops1 as [|op ops1 IH]; intros ops2 b; [done|].
  by rewrite <- app_comm_cons, !run_ops_cons, IH.
Qed.

(** X8. An id that has been handed out and then removed is never in the id
    index again, whatever is registered, removed or published afterwards:
    later registrations get larger ids. *)
Theorem removed_id_stays_removed (fid : Z) ops1 ops2 i :
  (N.of_nat (registrations ops1 + registrations ops2) ≤ ULONG_MAX)%N →
  (i ≤ N.of_nat (registrations ops1))%N →
  callback_id_table
    (run_ops (new_event_bus fid) (ops1 ++ OpRemove i :: ops2)).1 !! i = None.
Proof.
  intros Hn Hi. rewrite run_ops_app, run_ops_cons. cbn [apply_op fst].
  set (b1 := (run_ops (new_event_bus fid) ops1).1).
  destruct (callback_id_table _ !! i) as [cbl|] eqn:Hx; [|done].
  apply id_table_created in Hx as [Hx|[Hin Hid]].
  { by rewrite remove_listener_id_table in Hx. }
  assert (Hmem : id cbl ∈ map id (created (remove_listener i b1) ops2)).
  { apply list_elem_of_In, in_map, list_elem_of_In, Hin. }
  rewrite created_ids in Hmem.
  destruct (registrations ops2) as [|m] eqn:Hm.
  { rewrite run_ops_ids in Hmem by (by left). rewrite Hm in Hmem.
    by apply elem_of_nil in Hmem. }
  assert (Hnext : next_cbl_id (remove_listener i b1) =
                    N.of_nat (S (registrations ops1))).
  { pose proof (apply_op_next b1 (OpRemove i)) as Hr. simpl in Hr.
    rewrite Hr. subst b1. apply run_ops_next. lia. }
  rewrite run_ops_ids, Hnext in Hmem
    by (right; rewrite Hnext, Hm; unfold ULONG_MAX in Hn; lia).
  apply list_elem_of_In, in_map_iff in Hmem as [k [Hk _]]. lia.
Qed.

(** *** The dispatcher *)

(** X10. An event published on the channel named ["*"] is looked up twice in
    the same list: the handler of every listener subscribed to ["*"] is run
    twice on it, the whole list in order and then the whole list again,
    each handler on the state the one before left. *)
Theorem star_event_delivered_twice b e w :
  get_event_id e = "*" →
  Forall (returns_on e) (callback_table b !!! "*") →
  dispatch_event b e w =
    (map (λ l, (l, e)) (callback_table b !!! "*" ++ callback_table b !!! "*"),
     Returned
       (run_handlers (callback_table b !!! "*" ++ callback_table b !!! "*")
          e w)).
Proof.
  intros He Hret. rewrite dispatch_event_runs; unfold matching; rewrite He.
  - done.
  - by apply Forall_app.
Qed.

(** While the handlers return, the loop delivers the queue from the front
    and hands the state from one delivery to the next. *)
Lemma dispatcher_loop_prefix_runs g fuel rest : ∀ before b w log,
  keep_running g b = true →
  event_queue b = before ++ rest →
  Forall (λ e, Forall (returns_on e) (matching b e)) before →
  dispatcher_loop (length before + fuel) g b w log =
    dispatcher_loop fuel g (pop_queue b rest) (run_deliveries b before w)
      (log ++ deliveries b before).
Proof.
  induction before as [|e before IH]; intros b w log Hrun Hq Hret.
  - unfold deliveries. simpl. rewrite app_nil_r.
    destruct b; simpl in *; by subst.
  - apply Forall_cons in Hret as [He Hret].
    cbn [length Nat.add dispatcher_loop]. rewrite Hrun, Hq. cbn [app].
    change (dispatch_event (pop_queue b (before ++ rest)) e w)
      with (dispatch_event b e w).
    rewrite dispatch_event_runs by done.
    rewrite (IH (pop_queue b (before ++ rest))) by done.
    unfold deliveries. simpl. by rewrite <- app_assoc.
Qed.

(** X9. Publish order is delivery order: with handlers that return and no
    stop flag set, one run of the dispatcher takes every queued event,
    oldest first, and runs on it the handlers of the listeners of its
    channel and then those of ["*"], each handler on the state the one
    before left; the calls logged are these, and the run ends blocked on the
    empty queue. *)
Theorem dispatcher_runs_queue g b w :
  keep_running g b = true →
  Forall (λ e, Forall (returns_on e) (matching b e)) (event_queue b) →
  run_status (event_queue_dispatcher g b w) = Waiting ∧
  run_world (event_queue_dispatcher g b w) =
    run_deliveries b (event_queue b) w ∧
  run_log (event_queue_dispatcher g b w) = deliveries b (event_queue b) ∧
  event_queue (run_bus (event_queue_dispatcher g b w)) = [].
Proof.
  intros Hrun Hret. unfold event_queue_dispatcher.
  replace (S (length (event_queue b))) with (length (event_queue b) + 1)
    by lia.
  rewrite (dispatcher_loop_prefix_runs g 1 [] (event_queue b) b w [] Hrun)
    by (by rewrite ?app_nil_r).
  cbn [dispatcher_loop].
  change (keep_running g (pop_queue b [])) with (keep_running g b).
  by rewrite Hrun.
Qed.

Lemma dispatcher_loop_log_matching g fuel : ∀ b w log inv,
  inv ∈ run_log (dispatcher_loop fuel g b w log) →
  inv ∈ log ∨ (inv.2 ∈ event_queue b ∧ inv.1 ∈ matching b inv.2).
Proof.
  induction fuel as [|fuel IH]; intros b w log inv; simpl; [by left|].
  destruct (keep_running g b); [|by left].
  destruct (event_queue b) as [|e rest] eqn:Hq; [by left|].
  pose proof (invoke_each_log_sub (matching b e) e w inv) as Hd.
  rewrite <- dispatch_event_matching in Hd.
  change (dispatch_event b e w) with (dispatch_event (pop_queue b rest) e w)
    in Hd.
  destruct (dispatch_event (pop_queue b rest) e w) as [l [w'|w']]; simpl in *.
  - intros [[Hin|Hin]%elem_of_app|[Hin Hm]]%IH; [by left| |].
    + right. destruct (Hd Hin) as [Hl ->]. split; [left|done].
    + right. split; [by right|done].
  - intros [Hin|Hin]%elem_of_app; [by left|].
    right. destruct (Hd Hin) as [Hl ->]. split; [left|done].
Qed.

(** X11. The dispatcher never calls a subscription for an event it did not
    subscribe to: on a bus grown from a fresh one by any history, every call
    made in a run of the dispatcher - also one cut short by a throwing
    handler - is for an event that was in the queue, to a listener whose
    channel list names the event's channel or ["*"]. *)
Theorem dispatcher_calls_only_subscribers (fid : Z) ops g w :
  Forall (λ inv : invocation Payload W,
            inv.2 ∈ event_queue (run_ops (new_event_bus fid) ops).1 ∧
            (get_event_id inv.2 ∈ channels inv.1 ∨ "*" ∈ channels inv.1))
    (run_log (event_queue_dispatcher g (run_ops (new_event_bus fid) ops).1 w)).
Proof.
  apply Forall_forall. intros inv Hin.
  apply dispatcher_loop_log_matching in Hin as [Hin|[Hq Hm]];
    [by apply elem_of_nil in Hin|].
  split; [done|]. rewrite matching_created in Hm.
  apply elem_of_app in Hm as [[_ H]%subscribers_on_elem|[_ H]%subscribers_on_elem];
    [by left|by right].
Qed.

Lemma invoke_each_returns_log (ls : list (callback_listener Payload W)) e w :
  Forall (returns_on e) ls → (invoke_each ls e w).1 = map (λ l, (l, e)) ls.
Proof. intros H. by destruct (invoke_each_returns ls e H w) as [w' ->]. Qed.

Lemma run_handlers_app (l1 l2 : list (callback_listener Payload W)) e w :
  run_handlers (l1 ++ l2) e w = run_handlers l2 e (run_handlers l1 e w).
Proof. unfold run_handlers. by rewrite foldl_app. Qed.

(** X12. Every subscription in the id index gets the events it subscribed
    to: on a bus grown from a fresh one by any history, when the handlers
    visited for an event return, a subscription of the id index whose
    channel list names the event's channel or ["*"] is among the listeners
    visited, and its handler is run on that event, on the state the
    handlers before it left, the handlers after it going on from the state
    it leaves. *)
Theorem subscribers_receive_event (fid : Z) ops e w i cbl :
  callback_id_table (run_ops (new_event_bus fid) ops).1 !! i = Some cbl →
  get_event_id e ∈ channels cbl ∨ "*" ∈ channels cbl →
  Forall (returns_on e) (matching (run_ops (new_event_bus fid) ops).1 e) →
  (cbl, e) ∈ (dispatch_event (run_ops (new_event_bus fid) ops).1 e w).1 ∧
  ∃ pre post,
    matching (run_ops (new_event_bus fid) ops).1 e = pre ++ cbl :: post ∧
    (dispatch_event (run_ops (new_event_bus fid) ops).1 e w).2 =
      Returned
        (run_handlers post e (world_after (cb cbl e (run_handlers pre e w)))).
Proof.
  intros [H|[Hin _]]%id_table_created Hc Hret; [by simpl in H|].
  assert (Hm : cbl ∈ matching (run_ops (new_event_bus fid) ops).1 e).
  { rewrite matching_created. apply elem_of_app.
    destruct Hc as [Hc|Hc]; [left|right]; by apply subscribers_on_intro. }
  rewrite dispatch_event_runs by done. cbn [fst snd]. split.
  - apply list_elem_of_fmap. by exists cbl.
  - apply list_elem_of_split in Hm as (pre & post & Hsplit).
    exists pre, post. split; [done|].
    rewrite Hsplit, run_handlers_app. done.
Qed.

Lemma apply_op_shutdown b (op : bus_op Payload W) :
  shutdown (apply_op b op).1 = shutdown b.
Proof.
  destruct op as [c f|cs f|i|e]; try done.
  simpl. unfold remove_listener. by destruct (callback_id_table b !! i).
Qed.

Lemma run_ops_shutdown ops : ∀ b, shutdown (run_ops b ops).1 = shutdown b.
Proof.
  induction ops as [|op ops IH]; intros b; [done|].
  by rewrite run_ops_cons, IH, apply_op_shutdown.
Qed.

(** No call on the bus clears [shutdown]: a run of the dispatcher loop that
    starts after the flag was set, whatever was registered, removed or
    published in between, fails the loop test at once.  (An iteration
    already under way when the flag is set is not covered: the flag is read
    at the loop test only.) *)
Lemma shutdown_fails_loop_test b ops g w :
  let b' := (run_ops (begin_shutdown b) ops).1 in
  run_status (event_queue_dispatcher g b' w) = Exited ∧
  run_log (event_queue_dispatcher g b' w) = [] ∧
  run_world (event_queue_dispatcher g b' w) = w ∧
  event_queue (run_bus (event_queue_dispatcher g b' w)) = event_queue b'.
Proof.
  intros b'. assert (Hs : keep_running g b' = false).
  { unfold keep_running. subst b'. by rewrite run_ops_shutdown. }
  unfold event_queue_dispatcher. cbn [dispatcher_loop]. by rewrite Hs.
Qed.

End BusInvariants.

(** *** The scenarios, evaluated *)

Import Scenarios.

(** A subscription to ["y"] does not change who is called for ["x"]. *)
Lemma register_leaves_other_channels_witness :
  matching
    (register_listener_list ["y"] (recording 4) (run_ops fresh_bus fan_out).1).1
    (event_on "x" 7)
  = [listener ["x"] (recording 1) 1; listener ["x"] (recording 2) 2;
     listener ["*"] (recording 3) 3].
Proof.
  rewrite (register_leaves_other_channels ["y"] (recording 4)
             (run_ops fresh_bus fan_out).1 (event_on "x" 7)).
  - reflexivity.
  - by intros [=]%list_elem_of_singleton.
  - by intros [=]%list_elem_of_singleton.
Defined.

(** The second subscription is installed under ["y"] and under ["*"]. *)
Lemma id_index_entries_installed_witness :
  Forall (λ c, listener ["y"; "*"] (recording 2) 2 ∈
                 callback_table (run_ops fresh_bus two_then_none).1 !!! c)
    ["y"; "*"].
Proof.
  exact (proj2 (id_index_entries_installed 42 two_then_none 2
                  (listener ["y"; "*"] (recording 2) 2) eq_refl)).
Defined.

(** Register on ["z"] and remove the id again. *)
Lemma register_then_remove_id_index_witness :
  let b := (run_ops fresh_bus two_then_none).1 in
  callback_id_table
    (remove_listener 3 (register_listener_list ["z"] (recording 3) b).1)
  = callback_id_table b.
Proof.
  assert (Hn : (N.of_nat (registrations two_then_none) < ULONG_MAX)%N)
    by (by vm_compute).
  exact (proj1 (register_then_remove_id_index 42 two_then_none ["z"]
                  (recording 3) Hn)).
Defined.

(** Ids 1 and 2 are out; removing 5 does nothing. *)
Lemma remove_unissued_id_witness :
  remove_listener 5 (run_ops fresh_bus two_then_none).1 =
    (run_ops fresh_bus two_then_none).1.
Proof.
  apply (remove_unissued_id 42 two_then_none 5).
  - by vm_compute.
  - right. by vm_compute.
Defined.

(** Id 1 is removed; the registration that follows gets id 3. *)
Lemma removed_id_stays_removed_witness :
  callback_id_table (run_ops fresh_bus removed_then_registered).1 !! 1%N = None
  ∧ (run_ops fresh_bus removed_then_registered).2 = [1%N; 2%N; 3%N].
Proof.
  split; [|reflexivity].
  apply (removed_id_stays_removed 42 two_then_none
           [OpRegister "x" (recording 3)] 1).
  - by vm_compute.
  - by vm_compute.
Defined.

(** The event on ["x"] goes to A, B, C, then the event on ["y"] to C, and
    the handlers have recorded the payloads in this order. *)
Lemma dispatcher_runs_queue_witness :
  run_world (event_queue_dispatcher globalreg_running
               (run_ops fresh_bus fan_out_published).1 [])
  = [(1%N, Some 7%Z); (2%N, Some 7%Z); (3%N, Some 7%Z); (3%N, Some 8%Z)] ∧
  run_log (event_queue_dispatcher globalreg_running
             (run_ops fresh_bus fan_out_published).1 [])
  = [(listener ["x"] (recording 1) 1, event_on "x" 7);
     (listener ["x"] (recording 2) 2, event_on "x" 7);
     (listener ["*"] (recording 3) 3, event_on "x" 7);
     (listener ["*"] (recording 3) 3, event_on "y" 8)].
Proof.
  assert (Hret : Forall (λ e, Forall (returns_on e)
                          (matching (run_ops fresh_bus fan_out_published).1 e))
                   (event_queue (run_ops fresh_bus fan_out_published).1)).
  { repeat constructor; apply recording_returns. }
  destruct (dispatcher_runs_queue globalreg_running
              (run_ops fresh_bus fan_out_published).1 [] eq_refl Hret)
    as (_ & Hw & Hl & _).
  split; [exact Hw|exact Hl].
Defined.

(** An event on ["*"] reaches the one ["*"] subscriber twice: its handler
    has recorded payload 5 twice. *)
Lemma star_event_delivered_twice_witness :
  dispatch_event (run_ops fresh_bus fan_out).1 (event_on "*" 5) [] =
    ([(listener ["*"] (recording 3) 3, event_on "*" 5);
      (listener ["*"] (recording 3) 3, event_on "*" 5)],
     Returned [(3%N, Some 5%Z); (3%N, Some 5%Z)]).
Proof.
  apply (star_event_delivered_twice (run_ops fresh_bus fan_out).1
           (event_on "*" 5) [] eq_refl).
  repeat constructor; apply recording_returns.
Defined.

(** The ["*"] subscriber of the fan-out bus gets an event on ["y"]. *)
Lemma subscribers_receive_event_witness :
  (listener ["*"] (recording 3) 3, event_on "y" 8) ∈
    (dispatch_event (run_ops fresh_bus fan_out).1 (event_on "y" 8) []).1 ∧
  ∃ pre post,
    matching (run_ops fresh_bus fan_out).1 (event_on "y" 8) =
      pre ++ listener ["*"] (recording 3) 3 :: post ∧
    (dispatch_event (run_ops fresh_bus fan_out).1 (event_on "y" 8) []).2 =
      Returned
        (run_handlers post (event_on "y" 8)
           (world_after
              (recording 3 (event_on "y" 8)
                 (run_handlers pre (event_on "y" 8) [])))).
Proof.
  apply (subscribers_receive_event 42 fan_out (event_on "y" 8) [] 3
           (listener ["*"] (recording 3) 3) eq_refl).
  - right. left.
  - repeat constructor; apply recording_returns.
Defined.

End EventBusInvariants.

(** ** Facts about the probe coordinator *)

Module ProbeFacts.
Import ProbeCoordinator.

Lemma resolve_resolved mark st ic win r p :
  resolved (resolve mark st ic win r p) = true.
Proof. unfold resolve. by destruct (resolved p) eqn:H. Qed.

Lemma resolve_calls mark st ic win r p :
  resolved p = false →
  probe_cb_calls (resolve mark st ic win r p) = probe_cb_calls p ++ [r].
Proof. intros H. unfold resolve. by rewrite H. Qed.

Lemma resolve_done mark st ic win r p :
  resolved p = true → resolve mark st ic win r p = p.
Proof. intros H. unfold resolve. by rewrite H. Qed.

(** Once resolved, nothing that reaches the coordinator changes it. *)
Lemma step_resolved p ev : resolved p = true → step p ev = p.
Proof.
  intros H. destruct ev as [s t| |]; simpl.
  - unfold complete_probe. by rewrite H.
  - unfold deadline. destruct (cancel_timer p); [by apply resolve_done|done].
  - by apply resolve_done.
Qed.

Lemma steps_resolved evs : ∀ p, resolved p = true → foldl step p evs = p.
Proof.
  induction evs as [|ev evs IH]; intros p H; [done|].
  simpl. rewrite step_resolved by done. by apply IH.
Qed.

Lemma spawn_attempts_keep drivers : ∀ p,
  resolved (foldl spawn_attempt p drivers) = resolved p ∧
  probe_cb_calls (foldl spawn_attempt p drivers) = probe_cb_calls p.
Proof.
  induction drivers as [|d drivers IH]; intros p; [done|].
  simpl. destruct (IH (spawn_attempt p d)) as [-> ->].
  unfold spawn_attempt. by destruct (native_probe d).
Qed.

Lemma probe_sources_one_shot drivers def :
  one_shot (probe_sources (new_probe def drivers)).
Proof.
  unfold probe_sources. simpl.
  destruct (first_native drivers def) as [w|]; [done|].
  unfold one_shot, start_timer. simpl.
  by destruct (spawn_attempts_keep drivers (new_probe def drivers)) as [-> ->].
Qed.

Lemma resolve_one_shot mark st ic win r p :
  length (probe_cb_calls p) = (if resolved p then 1 else 0) →
  one_shot (resolve mark st ic win r p).
Proof.
  intros H. unfold one_shot, resolve.
  destruct (resolved p) eqn:Hr; simpl.
  - rewrite Hr. split; [done|]. intros; congruence.
  - rewrite length_app, H. split; [done|]. intros; congruence.
Qed.

Lemma step_one_shot p ev : one_shot p → one_shot (step p ev).
Proof.
  intros Hp. destruct (resolved p) eqn:Hr; [by rewrite step_resolved|].
  assert (Hc : length (probe_cb_calls p) = (if resolved p then 1 else 0))
    by apply Hp.
  destruct ev as [s t| |]; simpl.
  - unfold complete_probe. rewrite Hr.
    destruct (ipc_probe_map p !! t) as [a|]; [|done].
    destruct s; [by apply resolve_one_shot|].
    destruct (all_rejected _); [by apply resolve_one_shot|apply Hp].
  - unfold deadline. destruct (cancel_timer p); [|done].
    by apply resolve_one_shot.
  - by apply resolve_one_shot.
Qed.

Lemma run_one_shot drivers def evs : one_shot (run_probe drivers def evs).
Proof.
  unfold run_probe. generalize (probe_sources_one_shot drivers def).
  generalize (probe_sources (new_probe def drivers)) as p.
  induction evs as [|ev evs IH]; intros p Hp; [done|].
  simpl. by apply IH, step_one_shot.
Qed.

Lemma deadline_resolves p : one_shot p → resolved (deadline p) = true.
Proof.
  intros [_ Ht]. unfold deadline. destruct (resolved p) eqn:Hr.
  - by destruct (cancel_timer p); rewrite ?resolve_done.
  - rewrite Ht by done. apply resolve_resolved.
Qed.

(** C7. In every run of a probe coordinator - whatever drivers take part and
    whatever replies, cancellations and timer expiries reach it, in whatever
    order - [probe_cb] has been called once if the coordinator has resolved
    and not at all before; the deadline resolves it if nothing else has; and
    a call of [complete_probe], like anything else that reaches a resolved
    coordinator, leaves it as it is, so the count stays at one. *)
Theorem probe_cb_called_once drivers def evs :
  let p := run_probe drivers def evs in
  length (probe_cb_calls p) = (if resolved p then 1 else 0) ∧
  length (probe_cb_calls (run_probe drivers def (evs ++ [DeadlineFired]))) = 1 ∧
  (resolved p = true →
   ∀ in_success in_transaction later,
     complete_probe in_success in_transaction p = p ∧
     run_probe drivers def (evs ++ later) = p).
Proof.
  intros p. pose proof (run_one_shot drivers def evs) as Hp. fold p in Hp.
  split; [apply Hp|]. split.
  - pose proof (run_one_shot drivers def (evs ++ [DeadlineFired])) as [Hc _].
    rewrite Hc. unfold run_probe. rewrite foldl_app. simpl.
    fold (run_probe drivers def evs). fold p. by rewrite deadline_resolves.
  - intros Hr s t later. split.
    + apply (step_resolved p (Reply s t) Hr).
    + unfold run_probe. rewrite foldl_app. by apply steps_resolved.
Qed.

(** The probe race: D2 answers first and wins; the later reply of D3, a
    cancel and the deadline change nothing. *)
Lemma probe_cb_called_once_witness :
  let evs := [Reply true 0; Reply true 1; CancelCalled] in
  let p := run_probe race_drivers "wlan0" evs in
  probe_cb_calls p = [Chosen "D2"] ∧
  complete_probe true 1 p = p ∧
  run_probe race_drivers "wlan0" (evs ++ [DeadlineFired; Reply true 1]) = p.
Proof.
  intros evs p.
  destruct (probe_cb_called_once race_drivers "wlan0" evs) as (_ & _ & H).
  destruct (H eq_refl true 1%N [DeadlineFired; Reply true 1%N]) as [H1 H2].
  split; [reflexivity|]. split; [exact H1|exact H2].
Defined.

End ProbeFacts.

(** ** Facts about the source supervisor *)

Module SourceTrackerFacts.
Import SourceTracker.

Lemma retry_if_due_id now s : source_id (retry_if_due now s) = source_id s.
Proof.
  unfold retry_if_due, retry_source.
  destruct (_ && _); [|done]. by destruct (OpenSource _ _ _).
Qed.

Lemma timetracker_event_ids now t :
  source_id <$> datasource_vec (timetracker_event now t) =
    source_id <$> datasource_vec t.
Proof.
  simpl. rewrite <- list_fmap_compose. apply list_fmap_ext.
  intros _ s _. apply retry_if_due_id.
Qed.

Lemma timetracker_events_ids times : ∀ t,
  source_id <$> datasource_vec (foldl (flip timetracker_event) t times) =
    source_id <$> datasource_vec t.
Proof.
  induction times as [|now times IH]; intros t; [done|].
  simpl. by rewrite IH, timetracker_event_ids.
Qed.

Lemma tracker_wf_new : tracker_wf new_tracker.
Proof. constructor. Qed.

Lemma tracker_wf_register in_builder t :
  tracker_wf t → tracker_wf (register_datasource in_builder t).
Proof. done. Qed.

Lemma tracker_wf_open_proto in_source in_proto now t :
  tracker_wf t → tracker_wf (open_datasource_proto in_source in_proto now t).
Proof.
  intros Hwf. unfold tracker_wf, open_datasource_proto in *.
  destruct (OpenSource in_proto in_source now); simpl;
    (apply Forall_app; split;
     [eapply Forall_impl; [exact Hwf|]; simpl; intros; lia
     |constructor; [simpl; lia|constructor]]).
Qed.

Lemma tracker_wf_open in_source driver now t :
  tracker_wf t → tracker_wf (open_datasource in_source driver now t).
Proof.
  intros Hwf. unfold open_datasource.
  destruct (driver ≫= λ name, find_driver name t); [|done].
  by apply tracker_wf_open_proto.
Qed.

Lemma tracker_wf_timer now t :
  tracker_wf t → tracker_wf (timetracker_event now t).
Proof.
  unfold tracker_wf. simpl. rewrite Forall_fmap. intros Hwf.
  eapply Forall_impl; [exact Hwf|].
  intros s Hs. simpl. by rewrite retry_if_due_id.
Qed.

(** C8. When [open_datasource] has a driver for the source line and the
    driver's open fails, the new source is stored at the end of the active
    set with the next runtime id, which no source stored before has, in the
    [Error] state with the error message, and its id is in the error vector;
    the completion is called with the failure; no later run of the retry
    timer drops it from the active set; and a run of the timer at or after
    its retry time opens it again from the stored definition. *)
Theorem failed_open_keeps_source t in_source driver in_proto now err :
  tracker_wf t →
  (driver ≫= λ name, find_driver name t) = Some in_proto →
  OpenSource in_proto in_source now = Some err →
  let t' := open_datasource in_source driver now t in
  let src :=
    {| source_id := next_source_id t;
       source_definition := in_source;
       source_builder := in_proto;
       state := Error;
       last_error := err;
       retry_due := now + backoff 0;
       failures := 1 |} in
  datasource_vec t' = datasource_vec t ++ [src] ∧
  ¬ source_id src ∈ (source_id <$> datasource_vec t) ∧
  error_vec t' = error_vec t ++ [source_id src] ∧
  completions t' = completions t ++ [(false, err)] ∧
  tracker_wf t' ∧
  (∀ times,
     source_id src ∈
       (source_id <$>
          datasource_vec (foldl (flip timetracker_event) t' times))) ∧
  (∀ later, (retry_due src ≤ later)%N →
     datasource_vec (timetracker_event later t') =
       (retry_if_due later <$> datasource_vec t) ++ [retry_source later src]).
Proof.
  intros Hwf Hdrv Hopen t' src.
  assert (Ht' : t' = open_datasource_proto in_source in_proto now t).
  { subst t'. unfold open_datasource. by rewrite Hdrv. }
  assert (Hvec : datasource_vec t' = datasource_vec t ++ [src]).
  { rewrite Ht'. unfold open_datasource_proto. by rewrite Hopen. }
  split; [done|]. split.
  { intros [s [Hs Hin]]%list_elem_of_fmap. unfold tracker_wf in Hwf.
    rewrite Forall_forall in Hwf. apply Hwf in Hin. simpl in Hs. lia. }
  split; [rewrite Ht'; unfold open_datasource_proto; by rewrite Hopen|].
  split; [rewrite Ht'; unfold open_datasource_proto; by rewrite Hopen|].
  split; [rewrite Ht'; by apply tracker_wf_open_proto|].
  split.
  { intros times. rewrite timetracker_events_ids, Hvec, fmap_app.
    apply elem_of_app. right. simpl. left. }
  intros later Hdue. simpl. rewrite Hvec, fmap_app. f_equal. simpl.
  unfold retry_if_due. simpl.
  simpl in Hdue. apply N.leb_le in Hdue. by rewrite Hdue.
Qed.

(** An interface that is not plugged in at time 3: the source is kept in
    error, and the retry at time 30 finds it. *)
Lemma failed_open_keeps_source_witness :
  let t' := open_datasource "wlan0" (Some "linuxwifi") 3 one_driver in
  (state <$> datasource_vec t') = [Error] ∧
  error_vec t' = [0%N] ∧
  completions t' = [(false, "no such interface")] ∧
  (state <$> datasource_vec (timetracker_event 30 t')) = [Running].
Proof.
  intros t'.
  assert (Hwf : tracker_wf one_driver) by constructor.
  destruct (failed_open_keeps_source one_driver "wlan0" (Some "linuxwifi")
              unplugged_until_25 3 "no such interface" Hwf eq_refl eq_refl)
    as (Hvec & _ & Herr & Hc & _ & _ & Hretry).
  subst t'. split; [by rewrite Hvec|].
  split; [exact Herr|]. split; [exact Hc|].
  by rewrite (Hretry 30%N) by (vm_compute; congruence).
Defined.

End SourceTrackerFacts.

(** ** Facts about the frame codec *)

Module FrameCodecFacts.
Import FrameCodec.

Lemma byte_of_N_to_N (n : N) : Byte.to_N (byte_of_N n) = (n mod 256)%N.
Proof.
  unfold byte_of_N. destruct (Byte.of_N (n mod 256)) as [b|] eqn:Hb; simpl.
  - by apply Byte.to_of_N.
  - apply Byte.of_N_None_iff in Hb. pose proof (N.mod_lt n 256). lia.
Qed.

Lemma N_of_be16 (n : N) : (n < 2 ^ 16)%N → N_of_be (be16 n) = n.
Proof.
  intros Hn. unfold N_of_be, be16. cbn [foldl]. rewrite !byte_of_N_to_N.
  rewrite N.shiftr_div_pow2. change (2 ^ 8)%N with 256%N.
  change (2 ^ 16)%N with 65536%N in Hn.
  rewrite (N.mod_small (n / 256) 256) by (apply N.Div0.div_lt_upper_bound; lia).
  pose proof (N.div_mod' n 256). lia.
Qed.

Lemma N_of_be32 (n : N) : (n < 2 ^ 32)%N → N_of_be (be32 n) = n.
Proof.
  intros Hn. unfold N_of_be, be32. cbn [foldl]. rewrite !byte_of_N_to_N.
  rewrite !N.shiftr_div_pow2.
  change (2 ^ 8)%N with 256%N. change (2 ^ 16)%N with 65536%N.
  change (2 ^ 24)%N with 16777216%N. change (2 ^ 32)%N with 4294967296%N in Hn.
  rewrite (N.mod_small (n / 16777216) 256)
    by (apply N.Div0.div_lt_upper_bound; lia).
  pose proof (N.div_mod' n 256) as H0.
  pose proof (N.div_mod' (n / 256) 256) as H1.
  pose proof (N.div_mod' (n / 65536) 256) as H2.
  replace (n / 65536)%N with (n / 256 / 256)%N in *
    by (rewrite N.Div0.div_div; reflexivity).
  replace (n / 16777216)%N with (n / 256 / 256 / 256)%N
    by (rewrite !N.Div0.div_div; reflexivity).
  lia.
Qed.

Lemma read_bytes_app (bs rest : list byte) :
  read_bytes (length bs) (bs ++ rest) = Parsed bs rest.
Proof.
  unfold read_bytes. rewrite decide_True by (rewrite length_app; lia).
  by rewrite take_app_length, drop_app_length.
Qed.

Lemma read_be16_app (n : N) (rest : list byte) :
  (n < 2 ^ 16)%N → read_be 2 (be16 n ++ rest) = Parsed n rest.
Proof.
  intros Hn. unfold read_be.
  change 2 with (length (be16 n)). by rewrite read_bytes_app, N_of_be16.
Qed.

Lemma read_be32_app (n : N) (rest : list byte) :
  (n < 2 ^ 32)%N → read_be 4 (be32 n ++ rest) = Parsed n rest.
Proof.
  intros Hn. unfold read_be.
  change 4 with (length (be32 n)). by rewrite read_bytes_app, N_of_be32.
Qed.

Lemma length_list_byte_of_string (s : string) :
  length (String.list_byte_of_string s) = String.length s.
Proof.
  unfold String.list_byte_of_string. rewrite length_map.
  induction s as [|a s IH]; simpl; congruence.
Qed.

Lemma read_string_app (s : string) (rest : list byte) :
  read_string (N.of_nat (String.length s))
    (String.list_byte_of_string s ++ rest) = Parsed s rest.
Proof.
  unfold read_string. rewrite Nat2N.id, <- length_list_byte_of_string.
  by rewrite read_bytes_app, String.string_of_list_byte_of_string.
Qed.

Lemma parse_kv_emit (o : KisDataSource_CapKeyedObject) (rest : list byte) :
  valid_kv o → parse_kv (emit_kv o ++ rest) = Parsed o rest.
Proof.
  intros (Hk & Hs & Hlt). unfold parse_kv, emit_kv.
  rewrite <- !app_assoc, read_be16_app by done. cbn [bind_parsed].
  rewrite read_string_app. cbn [bind_parsed].
  rewrite read_be32_app by done. cbn [bind_parsed].
  rewrite Hs, Nat2N.id, read_bytes_app. cbn [bind_parsed].
  rewrite <- Hs. by destruct o.
Qed.

Lemma parse_kvs_emit (kv : list KisDataSource_CapKeyedObject) :
  Forall valid_kv kv → parse_kvs (length kv) (emit_payload kv) = Some kv.
Proof.
  induction 1 as [|o kv Ho _ IH]; [done|].
  unfold emit_payload in *. cbn [length map concat parse_kvs].
  by rewrite parse_kv_emit, IH.
Qed.

Section Codec.
Variable crc32 : list byte → N.

(** C9. For every frame type and ordered list of keyed objects that the wire
    format can carry, whatever the checksum function, parsing the bytes
    [emit] produces gives back the type and the keyed objects - key, size
    and payload bytes of each, in order - and leaves the bytes that follow
    the frame untouched. *)
Theorem parse_emit (t : string) (kv : list KisDataSource_CapKeyedObject)
    (rest : list byte) :
  valid_frame t kv →
  parse crc32 (emit crc32 t kv ++ rest) =
    Parsed {| frame_type := t; kvpairs := kv |} rest.
Proof.
  intros (Ht & Hn & Hkv & Hp). unfold parse, emit, emit_body.
  rewrite <- !app_assoc, read_be32_app by (by vm_compute). cbn [bind_parsed].
  rewrite decide_True by done.
  rewrite read_be16_app by done. cbn [bind_parsed]. rewrite read_string_app. cbn [bind_parsed].
  rewrite read_be32_app by done. cbn [bind_parsed]. rewrite read_be32_app by done. cbn [bind_parsed].
  rewrite Nat2N.id, read_bytes_app. cbn [bind_parsed].
  rewrite read_be32_app by (apply N.mod_lt; done). cbn [bind_parsed].
  rewrite decide_True by done. by rewrite Nat2N.id, parse_kvs_emit.
Qed.
End Codec.

(** A [PROBE] frame carrying the definition ["wlan0"]. *)
Lemma parse_emit_witness :
  parse crc32_ieee (emit crc32_ieee "PROBE" probe_kv ++ [x01]) =
    Parsed {| frame_type := "PROBE"; kvpairs := probe_kv |} [x01].
Proof.
  apply (parse_emit crc32_ieee "PROBE" probe_kv [x01]).
  split; [|split; [|split]].
  - vm_compute. reflexivity.
  - vm_compute. reflexivity.
  - repeat constructor.
  - vm_compute. reflexivity.
Defined.

End FrameCodecFacts.
